(** * Streamflow statistics (program_10.py): a shallow embedding

    The program reads daily discharge records into a pandas DataFrame indexed
    by date, clips it to a period, and reduces the discharge column to a set
    of hydrological indices per water year and per month.

    Modelling conventions.
    - A date is a calendar triple ordered lexicographically (the order of
      pandas Timestamps at day resolution).
    - A discharge cell is a float64 read from a USGS file: either NaN
      (missing) or a finite value.  A finite value is written as a rational;
      the float64 it stands for is the double nearest to it ([round64], the
      identity on doubles, as when a decimal field is parsed).
    - Where a float64 result decides a comparison (the mean in CalcTqmean,
      the median and its triple in CalcExceed3TimesMedian, the NaN-skipping
      column means of GetAnnualAverages) the operations are those of
      float64: the exact result rounded to the nearest double, ties to even.
      Overflow to an infinity and signed zeros are not modelled.
    - [Series.mean()] adds the values as numpy's [add.reduce] does on a
      contiguous float64 array (pairwise, in one call) and divides by their
      number.  The mean of a resampled bin is modelled by the same function;
      pandas adds the values of a bin in index order, which can change the
      last digit of the mean and nothing else that is stated here.
    - The sums and quotients of CalcRBindex, the rolling mean of Calc7Q, the
      means of the computed columns in GetAnnualAverages and the grouped
      means of GetMonthlyAverages are exact: only the last digits of their
      values depend on rounding.
    - A computed float64 that results from a division may also be infinite;
      such results have type [num].
    - A Python exception is an explicit [Raise] result. *)

From Stdlib Require Import String ZArith QArith Qpower Qround Qreduction Qabs.
From Stdlib Require Import Bool List Lia Lqa Sorted Permutation.
Import ListNotations.

(** ** Dates *)

Record Date : Type := mkDate { year : Z; month : Z; day : Z }.

Definition date_ltb (a b : Date) : bool :=
  ((year a <? year b) ||
   ((year a =? year b) &&
    ((month a <? month b) || ((month a =? month b) && (day a <? day b)))))%Z.

Definition date_leb (a b : Date) : bool := negb (date_ltb b a).

Definition date_eqb (a b : Date) : bool :=
  ((year a =? year b) && (month a =? month b) && (day a =? day b))%Z.

(** [index.is_monotonic_increasing] *)
Fixpoint is_monotonic_increasing (idx : list Date) : bool :=
  match idx with
  | [] => true
  | d :: rest =>
      match rest with
      | [] => true
      | d' :: _ => date_leb d d' && is_monotonic_increasing rest
      end
  end.

(** ** Floating-point values *)

(** A cell of the Discharge column: [None] is NaN. *)
Definition cell : Type := option Q.

(** A computed float64. *)
Inductive num : Type :=
| NaN
| PInf
| NInf
| Val (q : Q).

Definition num_of_cell (c : cell) : num :=
  match c with
  | None => NaN
  | Some q => Val q
  end.

Definition Qlt_bool (x y : Q) : bool := negb (Qle_bool y x).

(** float64 true division (numpy semantics: a zero divisor gives an infinity
    or NaN, never an exception). *)
Definition num_div (a b : num) : num :=
  match a, b with
  | NaN, _ => NaN
  | _, NaN => NaN
  | Val x, Val y =>
      if Qeq_bool y 0
      then (if Qeq_bool x 0 then NaN else if Qlt_bool 0 x then PInf else NInf)
      else Val (x / y)
  | Val _, PInf => Val 0
  | Val _, NInf => Val 0
  | PInf, Val y => if Qle_bool 0 y then PInf else NInf
  | NInf, Val y => if Qle_bool 0 y then NInf else PInf
  | PInf, PInf => NaN
  | PInf, NInf => NaN
  | NInf, PInf => NaN
  | NInf, NInf => NaN
  end.

Definition num_mul (a b : num) : num :=
  match a, b with
  | NaN, _ => NaN
  | _, NaN => NaN
  | Val x, Val y => Val (x * y)
  | Val x, PInf => if Qeq_bool x 0 then NaN else if Qlt_bool 0 x then PInf else NInf
  | Val x, NInf => if Qeq_bool x 0 then NaN else if Qlt_bool 0 x then NInf else PInf
  | PInf, Val y => if Qeq_bool y 0 then NaN else if Qlt_bool 0 y then PInf else NInf
  | NInf, Val y => if Qeq_bool y 0 then NaN else if Qlt_bool 0 y then NInf else PInf
  | PInf, PInf => PInf
  | NInf, NInf => PInf
  | PInf, NInf => NInf
  | NInf, PInf => NInf
  end.

Definition num_add (a b : num) : num :=
  match a, b with
  | NaN, _ => NaN
  | _, NaN => NaN
  | Val x, Val y => Val (x + y)
  | PInf, NInf => NaN
  | NInf, PInf => NaN
  | PInf, _ => PInf
  | _, PInf => PInf
  | NInf, _ => NInf
  | _, NInf => NInf
  end.

(** Comparison [a <= b] on float64: false as soon as one side is NaN. *)
Definition num_leb (a b : num) : bool :=
  match a, b with
  | NaN, _ => false
  | _, NaN => false
  | NInf, _ => true
  | _, PInf => true
  | Val x, Val y => Qle_bool x y
  | _, _ => false
  end.


(** *** float64 arithmetic *)

Definition pow2 (e : Z) : Q := 2 ^ e.

(** Floor of the binary logarithm of a positive rational. *)
Definition ilog2 (q : Q) : Z :=
  let k := (Z.log2 (Qnum q) - Z.log2 (Zpos (Qden q)))%Z in
  if Qle_bool (pow2 k) q then k else (k - 1)%Z.

(** Nearest integer, ties to even. *)
Definition round_half_even (q : Q) : Z :=
  let f := Qfloor q in
  match Qcompare (q - inject_Z f) (1 # 2) with
  | Lt => f
  | Gt => (f + 1)%Z
  | Eq => if Z.even f then f else (f + 1)%Z
  end.

(** Rounding of a positive rational to binary64: 53 significant bits, and
    multiples of 2^-1074 in the subnormal range. *)
Definition round64_pos (q : Q) : Q :=
  let e := Z.max (ilog2 q - 52) (-1074) in
  inject_Z (round_half_even (q / pow2 e)) * pow2 e.

(** The double nearest to a rational (round to nearest, ties to even). *)
Definition round64 (q : Q) : Q :=
  match Qcompare q 0 with
  | Eq => 0
  | Gt => Qred (round64_pos q)
  | Lt => Qred (- round64_pos (- q))
  end.

(** float64 addition, multiplication and division. *)
Definition fadd (x y : Q) : Q := round64 (x + y).
Definition fmul (x y : Q) : Q := round64 (x * y).
Definition fdiv (x y : Q) : Q := round64 (x / y).

(** Cell comparison [c > bound], as in the mask [Qvalues > x]: the float64
    value of the cell against the bound; NaN on either side compares
    false. *)
Definition cell_gtb (c bound : cell) : bool :=
  match c, bound with
  | Some x, Some y => Qlt_bool y (round64 x)
  | _, _ => false
  end.

Definition cell_sub (a b : cell) : cell :=
  match a, b with
  | Some x, Some y => Some (x - y)
  | _, _ => None
  end.

Definition cell_abs (a : cell) : cell := option_map Qabs a.

(** The float64 product [k * a]. *)
Definition cell_scale (k : Q) (a : cell) : cell := option_map (fmul k) a.

(** ** Python results *)

Inductive exn : Type :=
| ZeroDivisionError.

Inductive pyresult (A : Type) : Type :=
| Ret (a : A)
| Raise (e : exn).
Arguments Ret {A} a.
Arguments Raise {A} e.

Definition bind {A B : Type} (m : pyresult A) (k : A -> pyresult B) : pyresult B :=
  match m with
  | Ret a => k a
  | Raise e => Raise e
  end.

Notation "x <- m ;; k" := (bind m (fun x => k))
  (at level 61, m at next level, right associativity).

Fixpoint mapM {A B : Type} (f : A -> pyresult B) (l : list A) : pyresult (list B) :=
  match l with
  | [] => Ret []
  | a :: rest =>
      b <- f a ;;
      bs <- mapM f rest ;;
      Ret (b :: bs)
  end.

(** Python [int / int]: true division, raising on a zero divisor. *)
Definition py_truediv (a b : nat) : pyresult num :=
  match b with
  | O => Raise ZeroDivisionError
  | S _ => Ret (Val (inject_Z (Z.of_nat a) / inject_Z (Z.of_nat b)))
  end.

(** ** Tables and series *)

Record Row : Type := mkRow {
  row_Date : Date;
  agency_cd : string;
  site_no : string;
  Discharge : cell;
  Quality : string
}.

(** A DataFrame indexed by Date, in row order. *)
Definition DataFrame : Type := list Row.

(** A Series: index labels with their values, in order. *)
Definition Series : Type := list (Date * cell).

Definition df_index (df : DataFrame) : list Date := map row_Date df.

(** [DataDF["Discharge"]] *)
Definition col_Discharge (df : DataFrame) : Series :=
  map (fun r => (row_Date r, Discharge r)) df.

Definition index (s : Series) : list Date := map fst s.
Definition values (s : Series) : list cell := map snd s.

Definition isna (c : cell) : bool :=
  match c with
  | None => true
  | Some _ => false
  end.

Definition notna (c : cell) : bool := negb (isna c).

(** [.sum()] of a boolean array. *)
Definition count_true (m : list bool) : Z :=
  Z.of_nat (length (filter (fun b => b) m)).

(** The finite values of a list of cells, in order (skipna). *)
Fixpoint valid (l : list cell) : list Q :=
  match l with
  | [] => []
  | None :: rest => valid rest
  | Some q :: rest => q :: valid rest
  end.

Definition Qsum (l : list Q) : Q := fold_right Qplus 0 l.

(** [Series.sum()], skipping NaN; the empty sum is 0. *)
Definition Series_sum (s : Series) : Q := Qsum (valid (values s)).

(** Exact mean of a list of values; NaN when the list is empty. *)
Definition mean_of (l : list Q) : cell :=
  match l with
  | [] => None
  | _ :: _ => Some (Qsum l / inject_Z (Z.of_nat (length l)))
  end.

(** Accumulation from left to right. *)
Definition sum_seq (acc : Q) (l : list Q) : Q := fold_left fadd l acc.

(** One step of the unrolled loop: each accumulator takes the next value. *)
Fixpoint add_lanes (r chunk : list Q) : list Q :=
  match r, chunk with
  | x :: r', y :: chunk' => fadd x y :: add_lanes r' chunk'
  | _, _ => r
  end.

(** The unrolled loop over the full groups of eight values that remain. *)
Fixpoint unrolled (fuel : nat) (r rest : list Q) : list Q * list Q :=
  match fuel with
  | O => (r, rest)
  | S fuel' =>
      if (8 <=? length rest)%nat
      then unrolled fuel' (add_lanes r (firstn 8 rest)) (skipn 8 rest)
      else (r, rest)
  end.

(** A block of 8 to 128 values: eight accumulators, combined in pairs, then
    the values left over one by one. *)
Definition sum_block (l : list Q) : Q :=
  let '(r, rest) := unrolled (length l) (firstn 8 l) (skipn 8 l) in
  sum_seq (fadd (fadd (fadd (nth 0 r 0) (nth 1 r 0)) (fadd (nth 2 r 0) (nth 3 r 0)))
                (fadd (fadd (nth 4 r 0) (nth 5 r 0)) (fadd (nth 6 r 0) (nth 7 r 0))))
          rest.

(** The pairwise summation of numpy's [add.reduce] on a float64 array:
    fewer than 8 values are added from left to right, up to 128 with the
    unrolled loop, more by halves. *)
Fixpoint pairwise_sum (fuel : nat) (l : list Q) : Q :=
  let n := length l in
  if (n <? 8)%nat then sum_seq 0 l
  else if (n <=? 128)%nat then sum_block l
  else match fuel with
       | O => sum_block l
       | S fuel' =>
           let n2 := (n / 2 - (n / 2) mod 8)%nat in
           fadd (pairwise_sum fuel' (firstn n2 l)) (pairwise_sum fuel' (skipn n2 l))
       end.

Definition np_sum (l : list Q) : Q := pairwise_sum (length l) l.

(** The float64 values of the cells, NaN replaced by 0 (the fill value of
    the skip-NaN sum). *)
Definition filled (l : list cell) : list Q :=
  map (fun c => match c with None => 0 | Some q => round64 q end) l.

(** The skip-NaN mean of pandas: the float64 sum of the values divided by
    the number of values that are not NaN; NaN when there is none. *)
Definition mean_f64 (l : list cell) : cell :=
  match length (valid l) with
  | O => None
  | S _ => Some (fdiv (np_sum (filled l)) (inject_Z (Z.of_nat (length (valid l)))))
  end.

(** [Series.mean()] *)
Definition Series_mean (s : Series) : cell := mean_f64 (values s).

Fixpoint Qinsert (x : Q) (l : list Q) : list Q :=
  match l with
  | [] => [x]
  | y :: rest => if Qle_bool x y then x :: l else y :: Qinsert x rest
  end.

Definition Qsort (l : list Q) : list Q := fold_right Qinsert [] l.

(** The median of float64 values: the middle of the sorted values, or the
    float64 mean of the two middle ones. *)
Definition median_of (l : list Q) : cell :=
  let s := Qsort l in
  let n := length s in
  match n with
  | O => None
  | S _ =>
      if Nat.even n
      then Some (fdiv (fadd (nth (n / 2 - 1) s 0) (nth (n / 2) s 0)) 2)
      else Some (nth (n / 2) s 0)
  end.

(** [Series.median()], skipping NaN. *)
Definition Series_median (s : Series) : cell :=
  median_of (map round64 (valid (values s))).

Definition Qmax_list (l : list Q) : cell :=
  match l with
  | [] => None
  | x :: rest => Some (fold_left (fun m y => if Qle_bool m y then y else m) rest x)
  end.

Definition Qmin_list (l : list Q) : cell :=
  match l with
  | [] => None
  | x :: rest => Some (fold_left (fun m y => if Qle_bool y m then y else m) rest x)
  end.

(** [Series.max()] and [Series.min()], skipping NaN. *)
Definition Series_max (s : Series) : cell := Qmax_list (valid (values s)).
Definition Series_min (s : Series) : cell := Qmin_list (valid (values s)).

(** [Series.diff()]: first entry NaN, then each value minus its predecessor. *)
Fixpoint diff_from (prev : cell) (l : list cell) : list cell :=
  match l with
  | [] => []
  | x :: rest => cell_sub x prev :: diff_from x rest
  end.

Definition diff_values (l : list cell) : list cell :=
  match l with
  | [] => []
  | x :: rest => None :: diff_from x rest
  end.

Definition Series_diff (s : Series) : Series :=
  combine (index s) (diff_values (values s)).

Definition Series_abs (s : Series) : Series :=
  map (fun p => (fst p, cell_abs (snd p))) s.

(** Mean of one full window: NaN unless every observation is valid
    (min_periods defaults to the window size). *)
Definition window_mean (w : nat) (win : list cell) : cell :=
  if forallb notna win && (length win =? w)%nat
  then mean_of (valid win)
  else None.

(** [Series.rolling(window=w).mean()]: entry [i] averages the [w]
    observations ending at [i]; the first [w-1] entries are NaN. *)
Definition rolling_mean_values (w : nat) (l : list cell) : list cell :=
  map (fun i =>
         if (i + 1 <? w)%nat then None
         else window_mean w (firstn w (skipn (i + 1 - w) l)))
      (seq 0 (length l)).

Definition Series_rolling_mean (w : nat) (s : Series) : Series :=
  combine (index s) (rolling_mean_values w (values s)).

(** [index[mask]]: the labels where the mask holds. *)
Definition select_index (s : Series) (mask : list bool) : list Date :=
  map fst (filter (fun p => snd p) (combine (index s) mask)).

(** Insertion points of a key in a sorted index ([searchsorted], sides left
    and right): the number of labels before the key, and the number of
    labels up to and including it. *)
Definition searchsorted_left (idx : list Date) (d : Date) : nat :=
  length (filter (fun x => date_ltb x d) idx).

Definition searchsorted_right (idx : list Date) (d : Date) : nat :=
  length (filter (fun x => date_leb x d) idx).

(** Positional slice [rows[i:j]]. *)
Definition islice {A : Type} (i j : nat) (l : list A) : list A :=
  firstn (j - i) (skipn i l).

(** [DataDF[startDate:endDate]] on a monotonic increasing DatetimeIndex:
    label slicing, both ends inclusive, through the two insertion points. *)
Definition loc_slice (df : DataFrame) (startDate endDate : Date) : DataFrame :=
  islice (searchsorted_left (df_index df) startDate)
         (searchsorted_right (df_index df) endDate) df.

(** ** The program *)

Definition ClipData (DataDF : DataFrame) (startDate endDate : Date)
  : DataFrame * Z :=
  let MissingValues := count_true (map isna (values (col_Discharge DataDF))) in
  let b := map (fun d => date_ltb d startDate) (df_index DataDF) in
  let a := map (fun d => date_ltb endDate d) (df_index DataDF) in
  let DataDF := loc_slice DataDF startDate endDate in
  let MissingValues := (MissingValues + count_true b + count_true a)%Z in
  (DataDF, MissingValues).

Definition CalcTqmean (Qvalues : Series) : pyresult num :=
  let m := Series_mean Qvalues in
  let a := select_index Qvalues (map (fun v => cell_gtb v m) (values Qvalues)) in
  py_truediv (length a) (length Qvalues).

Definition CalcRBindex (Qvalues : Series) : num :=
  let a := Series_diff Qvalues in
  num_div (Val (Series_sum (Series_abs a))) (Val (Series_sum Qvalues)).

Definition Calc7Q (Qvalues : Series) : cell :=
  let a := Series_rolling_mean 7 Qvalues in
  Series_min a.

Definition CalcExceed3TimesMedian (Qvalues : Series) : Z :=
  let a := Series_median Qvalues in
  let b := select_index Qvalues
             (map (fun v => cell_gtb v (cell_scale 3 a)) (values Qvalues)) in
  Z.of_nat (length b).

(** *** Water-year resampling *)

(** Start of the water year (October 1) that contains a date: the label of
    its ['AS-OCT'] bin. *)
Definition water_year_start (d : Date) : Date :=
  if (10 <=? month d)%Z then mkDate (year d) 10 1
  else mkDate (year d - 1) 10 1.

Definition Zmin_list (x : Z) (l : list Z) : Z := fold_left Z.min l x.
Definition Zmax_list (x : Z) (l : list Z) : Z := fold_left Z.max l x.

(** The integers [lo, lo+1, ..., hi]. *)
Definition Zrange (lo hi : Z) : list Z :=
  map (fun i => (lo + Z.of_nat i)%Z) (seq 0 (Z.to_nat (hi - lo + 1))).

(** [resample('AS-OCT')]: one bin per water year from the earliest to the
    latest observation, empty bins included, each labelled by its first day
    and holding the observations of that water year in index order. *)
Definition resample_AS_OCT (s : Series) : list (Date * Series) :=
  match map (fun p => year (water_year_start (fst p))) s with
  | [] => []
  | y :: ys =>
      map (fun wy =>
             (mkDate wy 10 1,
              filter (fun p => (year (water_year_start (fst p)) =? wy)%Z) s))
          (Zrange (Zmin_list y ys) (Zmax_list y ys))
  end.

Record WYRow : Type := mkWYRow {
  wy_label : Date;
  wy_Mean_Flow : cell;
  wy_Peak_Flow : cell;
  wy_Median_Flow : cell;
  wy_Coeff_Var : num;
  wy_Skew : num;
  wy_Tqmean : num;
  wy_RB_Index : num;
  wy_7Q : cell;
  wy_3xMedian : Z
}.

Section AnnualStatistics.

(** Library reductions that are not rational functions of the data: the
    sample standard deviation of pandas and [scipy.stats.skew]. *)
Variable std : Series -> num.
Variable skew : Series -> num.

Definition GetAnnualStatistics (DataDF : DataFrame) : pyresult (list WYRow) :=
  let bins := resample_AS_OCT (col_Discharge DataDF) in
  let mean := map (fun b => Series_mean (snd b)) bins in
  let peak := map (fun b => Series_max (snd b)) bins in
  let med := map (fun b => Series_median (snd b)) bins in
  let sd := map (fun b => std (snd b)) bins in
  let cov := map (fun p => num_mul (num_div (fst p) (num_of_cell (snd p))) (Val 100))
                 (combine sd mean) in
  let skw := map (fun b => skew (snd b)) bins in
  tq <- mapM (fun b => CalcTqmean (snd b)) bins ;;
  let rb := map (fun b => CalcRBindex (snd b)) bins in
  let sq := map (fun b => Calc7Q (snd b)) bins in
  let tm := map (fun b => CalcExceed3TimesMedian (snd b)) bins in
  Ret (map (fun i =>
              mkWYRow (nth i (map fst bins) (mkDate 0 0 0))
                      (nth i mean None) (nth i peak None) (nth i med None)
                      (nth i cov NaN) (nth i skw NaN) (nth i tq NaN)
                      (nth i rb NaN) (nth i sq None) (nth i tm 0%Z))
           (seq 0 (length bins))).

End AnnualStatistics.

(** *** Monthly averages *)

Record MoRow : Type := mkMoRow {
  mo_label : Date;
  mo_Mean_Flow : num;
  mo_Coeff_Var : num;
  mo_Tqmean : num;
  mo_RB_Index : num
}.

(** A row of the grouped result, keyed by the month number. *)
Record MoAvgRow : Type := mkMoAvgRow {
  avg_month : Z;
  avg_Mean_Flow : num;
  avg_Coeff_Var : num;
  avg_Tqmean : num;
  avg_RB_Index : num
}.

Definition num_isna (x : num) : bool :=
  match x with
  | NaN => true
  | _ => false
  end.

(** Column mean, skipping NaN; NaN when nothing is left. *)
Definition num_mean (l : list num) : num :=
  match filter (fun x => negb (num_isna x)) l with
  | [] => NaN
  | v => num_div (fold_left num_add v (Val 0))
                 (Val (inject_Z (Z.of_nat (length v))))
  end.

(** Insertion of a group key into the sorted list of distinct keys. *)
Fixpoint key_insert (k : Z) (keys : list Z) : list Z :=
  match keys with
  | [] => [k]
  | x :: rest =>
      if (k <? x)%Z then k :: keys
      else if (k =? x)%Z then keys
      else x :: key_insert k rest
  end.

(** The group keys of [groupby(by=[index.month])]: the distinct month
    numbers that occur, in ascending order (sort=True). *)
Definition group_keys (df : list MoRow) : list Z :=
  fold_left (fun keys r => key_insert (month (mo_label r)) keys) df [].

Definition GetMonthlyAverages (MoDataDF : list MoRow) : list MoAvgRow :=
  map (fun k =>
         let g := filter (fun r => (month (mo_label r) =? k)%Z) MoDataDF in
         mkMoAvgRow k
                    (num_mean (map mo_Mean_Flow g))
                    (num_mean (map mo_Coeff_Var g))
                    (num_mean (map mo_Tqmean g))
                    (num_mean (map mo_RB_Index g)))
      (group_keys MoDataDF).

(** ** Objects and references

    Python passes a DataFrame by reference.  The object store maps an
    object identity (a position) to a table; a call receives the identity
    held by the caller. *)

Definition ref : Type := nat.
Definition heap : Type := list DataFrame.

Definition deref (h : heap) (r : ref) : option DataFrame := nth_error h r.

Definition alloc (h : heap) (df : DataFrame) : heap * ref :=
  (h ++ [df], length h).

(** [ClipData] on the object store.  The parameter [DataDF] holds the
    caller's object; line 62 builds a new object from the slice and rebinds
    the local name to it.  No statement writes to the object received. *)
Definition ClipData_call (h : heap) (DataDF : ref) (startDate endDate : Date)
  : option (heap * (ref * Z)) :=
  match deref h DataDF with
  | None => None
  | Some df =>
      let MissingValues := count_true (map isna (values (col_Discharge df))) in
      let b := map (fun d => date_ltb d startDate) (df_index df) in
      let a := map (fun d => date_ltb endDate d) (df_index df) in
      let '(h1, DataDF1) := alloc h (loc_slice df startDate endDate) in
      let MissingValues := (MissingValues + count_true b + count_true a)%Z in
      Some (h1, (DataDF1, MissingValues))
  end.

(** ** Vocabulary of the statements *)

Definition row_le (r1 r2 : Row) : Prop :=
  date_leb (row_Date r1) (row_Date r2) = true.

Definition sorted_rows (df : DataFrame) : Prop := StronglySorted row_le df.

(** A predicate on rows that, once false at a date, stays false later. *)
Definition prefix_closed (p : Row -> bool) : Prop :=
  forall r1 r2, row_le r1 r2 -> p r2 = true -> p r1 = true.

(** Date lies in the closed range. *)
Definition in_range (startDate endDate : Date) (r : Row) : bool :=
  date_leb startDate (row_Date r) && date_leb (row_Date r) endDate.

(** Row is dated before the start or after the end. *)
Definition out_of_range (startDate endDate : Date) (r : Row) : bool :=
  date_ltb (row_Date r) startDate || date_ltb endDate (row_Date r).


(** Number of missing Discharge values of a table. *)
Definition missing_count (df : DataFrame) : Z :=
  Z.of_nat (length (filter (fun r => isna (Discharge r)) df)).

(** Number of rows that a clip to the range leaves out. *)
Definition excluded_count (startDate endDate : Date) (df : DataFrame) : Z :=
  Z.of_nat (length (filter (out_of_range startDate endDate) df)).

(** A table with a single valid observation on 2000-01-05. *)
Definition one_day_table : DataFrame :=
  [mkRow (mkDate 2000 1 5) "USGS" "03335000" (Some 1) "A"].

(** An object store holding the one-row table at identity 0. *)
Definition one_object_heap : heap := [one_day_table].

(** The series has no missing value. *)
Definition no_missing (s : Series) : bool := forallb notna (values s).

(** The observations of a series: its finite values, in order. *)
Definition observations (s : Series) : list Q := valid (values s).

(** Arithmetic mean of a list of values. *)
Definition arithmetic_mean (l : list Q) : Q :=
  Qsum l / inject_Z (Z.of_nat (length l)).


(** A three-day series with values 1, 2, 6. *)
Definition three_day_series : Series :=
  [(mkDate 2000 1 1, Some 1); (mkDate 2000 1 2, Some 2); (mkDate 2000 1 3, Some 6)].






(** Seven days with values 4, 2, 6, 1, 5, 3, 7. *)
Definition seven_day_series : Series :=
  [(mkDate 2000 1 1, Some 4); (mkDate 2000 1 2, Some 2); (mkDate 2000 1 3, Some 6);
   (mkDate 2000 1 4, Some 1); (mkDate 2000 1 5, Some 5); (mkDate 2000 1 6, Some 3);
   (mkDate 2000 1 7, Some 7)].

(** Number of values at most [m], at least [m], strictly above [m]. *)
Definition count_le (m : Q) (l : list Q) : nat :=
  length (filter (fun x => Qle_bool x m) l).

Definition count_ge (m : Q) (l : list Q) : nat :=
  length (filter (fun x => Qle_bool m x) l).

Definition count_above (m : Q) (l : list Q) : Z :=
  Z.of_nat (length (filter (fun x => Qlt_bool m x) l)).

(** [m] is a median of [l]: at least half of the values are at most [m]
    and at least half are at least [m]. *)
Definition is_median (m : Q) (l : list Q) : Prop :=
  (length l <= 2 * count_le m l)%nat /\ (length l <= 2 * count_ge m l)%nat.


(** Two consecutive days across a water-year boundary. *)
Definition boundary_table : DataFrame :=
  [mkRow (mkDate 1999 9 30) "USGS" "03335000" (Some 5) "A";
   mkRow (mkDate 1999 10 1) "USGS" "03335000" (Some 7) "A"].

(** Every row of the table is labelled with a calendar month 1..12. *)
Definition months_valid (df : list MoRow) : bool :=
  forallb (fun r => (1 <=? month (mo_label r))%Z && (month (mo_label r) <=? 12)%Z) df.

(** Each calendar month 1..12 occurs in the table. *)
Definition covers_all_months (df : list MoRow) : bool :=
  forallb (fun m => existsb (fun r => (month (mo_label r) =? m)%Z) df) (Zrange 1 12).

(** The rows of the table that fall in calendar month [m]. *)
Definition month_group (m : Z) (df : list MoRow) : list MoRow :=
  filter (fun r => (month (mo_label r) =? m)%Z) df.

(** A table with a single row, for January 2000. *)
Definition one_month_table : list MoRow :=
  [mkMoRow (mkDate 2000 1 1) (Val 10) (Val 5) (Val (1 # 2)) (Val (1 # 10))].

(** Two years of monthly rows; the metrics of year [y], month [m] are all
    [y + m]. *)
Definition two_year_table : list MoRow :=
  flat_map (fun y =>
              map (fun m => let v := Val (inject_Z (y + m)) in
                            mkMoRow (mkDate y m 1) v v v v)
                  (Zrange 1 12))
           [2000%Z; 2001%Z].

(** ** The rest of the script *)

(** *** Monthly resampling *)

(** Months counted from year 0: the ['MS'] bin of a calendar date. *)
Definition month_index (d : Date) : Z := (year d * 12 + (month d - 1))%Z.

(** First day of the month with a given index: the label of the bin. *)
Definition month_label (k : Z) : Date := mkDate (k / 12) (k mod 12 + 1) 1.

(** [resample('MS')]: one bin per calendar month from the earliest to the
    latest observation, empty bins included, each labelled by its first day
    and holding the observations of that month in index order. *)
Definition resample_MS (s : Series) : list (Date * Series) :=
  match map (fun p => month_index (fst p)) s with
  | [] => []
  | k :: ks =>
      map (fun i =>
             (month_label i,
              filter (fun p => (month_index (fst p) =? i)%Z) s))
          (Zrange (Zmin_list k ks) (Zmax_list k ks))
  end.

Section MonthlyStatistics.

(** The sample standard deviation of pandas. *)
Variable std : Series -> num.

Definition GetMonthlyStatistics (DataDF : DataFrame) : pyresult (list MoRow) :=
  let bins := resample_MS (col_Discharge DataDF) in
  let mean := map (fun b => Series_mean (snd b)) bins in
  let sd := map (fun b => std (snd b)) bins in
  let cov := map (fun p => num_mul (num_div (fst p) (num_of_cell (snd p))) (Val 100))
                 (combine sd mean) in
  tq <- mapM (fun b => CalcTqmean (snd b)) bins ;;
  let rb := map (fun b => CalcRBindex (snd b)) bins in
  Ret (map (fun i =>
              mkMoRow (nth i (map fst bins) (mkDate 0 0 0))
                      (num_of_cell (nth i mean None)) (nth i cov NaN)
                      (nth i tq NaN) (nth i rb NaN))
           (seq 0 (length bins))).

End MonthlyStatistics.

(** *** Annual averages *)

(** The Series returned by [GetAnnualAverages]: one value per metric. *)
Record AnnualAveragesRow : Type := mkAnnualAverages {
  aa_Mean_Flow : num;
  aa_Peak_Flow : num;
  aa_Median_Flow : num;
  aa_Coeff_Var : num;
  aa_Skew : num;
  aa_Tqmean : num;
  aa_RB_Index : num;
  aa_7Q : num;
  aa_3xMedian : num
}.

(** [.mean()] of a column of cells, skipping NaN. *)
Definition cell_col_mean (l : list cell) : num := num_of_cell (mean_f64 l).

(** [.mean()] of an integer column. *)
Definition int_col_mean (l : list Z) : num :=
  num_mean (map (fun z => Val (inject_Z z)) l).

Definition GetAnnualAverages (WYDataDF : list WYRow) : AnnualAveragesRow :=
  mkAnnualAverages
    (cell_col_mean (map wy_Mean_Flow WYDataDF))
    (cell_col_mean (map wy_Peak_Flow WYDataDF))
    (cell_col_mean (map wy_Median_Flow WYDataDF))
    (num_mean (map wy_Coeff_Var WYDataDF))
    (num_mean (map wy_Skew WYDataDF))
    (num_mean (map wy_Tqmean WYDataDF))
    (num_mean (map wy_RB_Index WYDataDF))
    (cell_col_mean (map wy_7Q WYDataDF))
    (int_col_mean (map wy_3xMedian WYDataDF)).

(** *** The per-station steps of the main script *)

(** The fixed analysis period of the script (line 235). *)
Definition analysis_start : Date := mkDate 1969 10 1.
Definition analysis_end : Date := mkDate 2019 9 30.

(** What the script keeps for one station after the loop body. *)
Record StationResult : Type := mkStationResult {
  st_DataDF : DataFrame;
  st_MissingValues : Z;
  st_WYDataDF : list WYRow;
  st_AnnualAverages : AnnualAveragesRow;
  st_MoDataDF : list MoRow;
  st_MonthlyAverages : list MoAvgRow
}.

Section MainLoop.

Variable std : Series -> num.
Variable skew : Series -> num.

(** The body of the loop over the stations (lines 234-250), from the table
    that [ReadData] returned. *)
Definition process_station (raw : DataFrame) : pyresult StationResult :=
  let '(DataDF, MissingValues) := ClipData raw analysis_start analysis_end in
  WYDataDF <- GetAnnualStatistics std skew DataDF ;;
  let AnnualAverages := GetAnnualAverages WYDataDF in
  MoDataDF <- GetMonthlyStatistics std DataDF ;;
  let MonthlyAverages := GetMonthlyAverages MoDataDF in
  Ret (mkStationResult DataDF MissingValues WYDataDF AnnualAverages
                       MoDataDF MonthlyAverages).

End MainLoop.

(** ** Further vocabulary *)

(** A table of four days, two of them outside February 2000 and one of
    those missing. *)
Definition four_day_table : DataFrame :=
  [mkRow (mkDate 2000 1 30) "USGS" "03335000" None "A";
   mkRow (mkDate 2000 2 1) "USGS" "03335000" (Some 3) "A";
   mkRow (mkDate 2000 2 2) "USGS" "03335000" None "A";
   mkRow (mkDate 2000 3 5) "USGS" "03335000" (Some 4) "A"].

(** Every observation of the series is at least 0. *)
Definition nonneg_flows (s : Series) : bool :=
  forallb (fun x => Qle_bool 0 x) (observations s).

(** Three days of which the second is missing. *)
Definition gappy_series : Series :=
  [(mkDate 2000 1 1, Some 1); (mkDate 2000 1 2, None); (mkDate 2000 1 3, Some 6)].

(** Number of the water year of a date: the year in which it starts. *)
Definition water_year (d : Date) : Z := year (water_year_start d).

(** The common shape of the two resamplings: bins by an integer period
    number, from the least to the greatest that occurs, each labelled by
    the first day of the period. *)
Definition resample_by (key : Date -> Z) (label : Z -> Date) (s : Series)
  : list (Date * Series) :=
  match map (fun p => key (fst p)) s with
  | [] => []
  | k :: ks =>
      map (fun i => (label i, filter (fun p => (key (fst p) =? i)%Z) s))
          (Zrange (Zmin_list k ks) (Zmax_list k ks))
  end.

(** The series has an observation in period [k]. *)
Definition has_key (key : Date -> Z) (k : Z) (s : Series) : bool :=
  existsb (fun p => (key (fst p) =? k)%Z) s.

(** The table has a row in water year [y]; in the month of index [k]. *)
Definition has_water_year (y : Z) (df : DataFrame) : bool :=
  existsb (fun r => (water_year (row_Date r) =? y)%Z) df.

Definition has_month (k : Z) (df : DataFrame) : bool :=
  existsb (fun r => (month_index (row_Date r) =? k)%Z) df.

(** Observations on 1999-09-30 and 2001-10-01: water year 2000 is missing
    between them. *)
Definition gap_year_table : DataFrame :=
  [mkRow (mkDate 1999 9 30) "USGS" "03335000" (Some 5) "A";
   mkRow (mkDate 2001 10 1) "USGS" "03335000" (Some 7) "A"].

(** The row of the annual table that belongs to one bin, given the Tqmean
    of the bin. *)
Definition wy_row_of_bin (std skew : Series -> num) (b : Date * Series) (t : num)
  : WYRow :=
  mkWYRow (fst b)
          (Series_mean (snd b)) (Series_max (snd b)) (Series_median (snd b))
          (num_mul (num_div (std (snd b)) (num_of_cell (Series_mean (snd b))))
                   (Val 100))
          (skew (snd b)) t (CalcRBindex (snd b)) (Calc7Q (snd b))
          (CalcExceed3TimesMedian (snd b)).

(** The row of the monthly table that belongs to one bin. *)
Definition mo_row_of_bin (std : Series -> num) (b : Date * Series) (t : num)
  : MoRow :=
  mkMoRow (fst b)
          (num_of_cell (Series_mean (snd b)))
          (num_mul (num_div (std (snd b)) (num_of_cell (Series_mean (snd b))))
                   (Val 100))
          t (CalcRBindex (snd b)).

(** A stand-in for the library reductions where a closed example needs one. *)
Definition no_reduction (s : Series) : num := NaN.

(** Observations in January 2000 and March 2000, none in February. *)
Definition gap_month_table : DataFrame :=
  [mkRow (mkDate 2000 1 31) "USGS" "03335000" (Some 5) "A";
   mkRow (mkDate 2000 3 1) "USGS" "03335000" (Some 7) "A"].

(** One observation on the first day of each month of 2000. *)
Definition twelve_month_days : DataFrame :=
  map (fun m => mkRow (mkDate 2000 m 1) "USGS" "03335000"
                      (Some (inject_Z m)) "A")
      (Zrange 1 12).


(** Every row is dated in a calendar month 1..12. *)
Definition calendar_months (df : DataFrame) : bool :=
  forallb (fun r => (1 <=? month (row_Date r))%Z && (month (row_Date r) <=? 12)%Z) df.


(** The float64 values of the observations of a series. *)
Definition doubles (s : Series) : list Q := map round64 (observations s).


(** The values that binary64 represents (overflow aside): an integer of
    less than 53 bits times a power of two not below 2^-1074. *)
Definition on_grid (d : Q) : Prop :=
  exists M e, (Z.abs M < 2 ^ 53)%Z /\ (-1074 <= e)%Z /\ d == inject_Z M * pow2 e.

(** The exponent of the grid on which a positive value is rounded. *)
Definition grid_exp (q : Q) : Z := Z.max (ilog2 q - 52) (-1074).


(** * Properties *)

(** ** The order on dates *)

Ltac date_bools :=
  unfold date_leb, date_ltb, date_eqb in *;
  repeat match goal with
         | H : negb _ = true |- _ => apply negb_true_iff in H
         | H : negb _ = false |- _ => apply negb_false_iff in H
         | |- negb _ = true => apply negb_true_iff
         | |- negb _ = false => apply negb_false_iff
         end;
  repeat match goal with
         | H : _ = false |- _ => apply not_true_iff_false in H
         | |- _ = false => apply not_true_iff_false
         end;
  rewrite ?orb_true_iff, ?andb_true_iff, ?Z.ltb_lt, ?Z.eqb_eq in *.

Lemma date_ltb_trans a b c :
  date_ltb a b = true -> date_ltb b c = true -> date_ltb a c = true.
Proof. intros H1 H2. date_bools. lia. Qed.

Lemma date_ltb_irrefl a : date_ltb a a = false.
Proof. date_bools. lia. Qed.

Lemma date_leb_trans a b c :
  date_leb a b = true -> date_leb b c = true -> date_leb a c = true.
Proof. intros H1 H2. date_bools. lia. Qed.

Lemma date_leb_refl a : date_leb a a = true.
Proof. unfold date_leb. now rewrite date_ltb_irrefl. Qed.

Lemma date_ltb_leb_trans a b c :
  date_ltb a b = true -> date_leb b c = true -> date_ltb a c = true.
Proof. intros H1 H2. date_bools. lia. Qed.

Lemma date_leb_ltb_trans a b c :
  date_leb a b = true -> date_ltb b c = true -> date_ltb a c = true.
Proof. intros H1 H2. date_bools. lia. Qed.

Lemma date_ltb_leb a b : date_ltb a b = true -> date_leb a b = true.
Proof. intros H. date_bools. lia. Qed.

(** ** Sorted tables and label slices *)

Lemma monotonic_sorted_rows df :
  is_monotonic_increasing (df_index df) = true -> sorted_rows df.
Proof.
  induction df as [|r df IH]; intros H.
  - constructor.
  - assert (Htail : is_monotonic_increasing (df_index df) = true).
    { simpl in H. destruct (df_index df) eqn:E; [reflexivity|].
      apply andb_true_iff in H. tauto. }
    specialize (IH Htail). constructor; [exact IH|].
    destruct df as [|r' df']; [constructor|].
    simpl in H. apply andb_true_iff in H. destruct H as [Hle _].
    constructor; [exact Hle|].
    inversion IH as [|? ? _ Hall]; subst.
    eapply Forall_impl; [|exact Hall].
    intros x Hx. unfold row_le in *. eapply date_leb_trans; eauto.
Qed.

Lemma sorted_rows_filter f df : sorted_rows df -> sorted_rows (filter f df).
Proof.
  induction 1 as [|r df Hs IH Hall]; simpl; [constructor|].
  destruct (f r); [|exact IH].
  constructor; [exact IH|].
  rewrite Forall_forall in *. intros x Hx. apply filter_In in Hx. apply Hall, Hx.
Qed.

Lemma filter_none {A} (p : A -> bool) l :
  Forall (fun x => p x = false) l -> filter p l = [].
Proof.
  induction 1 as [|x l Hx _ IH]; simpl; [reflexivity|]. now rewrite Hx.
Qed.

Lemma filter_all {A} (p : A -> bool) l :
  Forall (fun x => p x = true) l -> filter p l = l.
Proof.
  induction 1 as [|x l Hx _ IH]; simpl; [reflexivity|]. now rewrite Hx, IH.
Qed.

Lemma sorted_prefix_split p df :
  sorted_rows df -> prefix_closed p ->
  firstn (length (filter p df)) df = filter p df /\
  skipn (length (filter p df)) df = filter (fun r => negb (p r)) df.
Proof.
  intros Hs Hp. induction Hs as [|r df Hs IH Hall]; simpl; [auto|].
  destruct (p r) eqn:Hr; simpl.
  - destruct IH as [IH1 IH2]. now rewrite IH1, IH2.
  - assert (Hnone : Forall (fun x => p x = false) df).
    { eapply Forall_impl; [|exact Hall]. intros x Hx.
      destruct (p x) eqn:E; [|reflexivity].
      rewrite (Hp r x Hx E) in Hr. discriminate. }
    rewrite (filter_none p df Hnone). simpl. split; [reflexivity|].
    f_equal. symmetry. apply filter_all.
    eapply Forall_impl; [|exact Hnone]. intros x Hx. now rewrite Hx.
Qed.

Lemma searchsorted_left_rows df d :
  searchsorted_left (df_index df) d
  = length (filter (fun r => date_ltb (row_Date r) d) df).
Proof.
  unfold searchsorted_left, df_index.
  induction df as [|r df IH]; simpl; [reflexivity|].
  destruct (date_ltb (row_Date r) d); simpl; now rewrite IH.
Qed.

Lemma searchsorted_right_rows df d :
  searchsorted_right (df_index df) d
  = length (filter (fun r => date_leb (row_Date r) d) df).
Proof.
  unfold searchsorted_right, df_index.
  induction df as [|r df IH]; simpl; [reflexivity|].
  destruct (date_leb (row_Date r) d); simpl; now rewrite IH.
Qed.

Lemma filter_filter {A} (p q : A -> bool) l :
  filter p (filter q l) = filter (fun x => q x && p x) l.
Proof.
  induction l as [|x l IH]; simpl; [reflexivity|].
  destruct (q x); simpl; [destruct (p x)|]; now rewrite IH.
Qed.

Lemma filter_length_le_impl {A} (p q : A -> bool) l :
  (forall x, p x = true -> q x = true) ->
  (length (filter p l) <= length (filter q l))%nat.
Proof.
  intros H. induction l as [|x l IH]; simpl; [lia|].
  destruct (p x) eqn:E.
  - rewrite (H x E). simpl. lia.
  - destruct (q x); simpl; lia.
Qed.

(** On a sorted index the label slice keeps exactly the rows whose date
    lies in the closed range, whatever the order of the two bounds. *)
Lemma loc_slice_filter df startDate endDate :
  sorted_rows df ->
  loc_slice df startDate endDate = filter (in_range startDate endDate) df.
Proof.
  intros Hs. unfold loc_slice, islice.
  rewrite searchsorted_left_rows, searchsorted_right_rows.
  set (p := fun r => date_ltb (row_Date r) startDate).
  set (q := fun r => date_leb (row_Date r) endDate).
  assert (Hp : prefix_closed p).
  { intros r1 r2 Hle H. unfold p in *. eapply date_leb_ltb_trans; eauto. }
  assert (Hq : prefix_closed q).
  { intros r1 r2 Hle H. unfold q in *. eapply date_leb_trans; eauto. }
  destruct (date_leb startDate endDate) eqn:Hord.
  - (* start <= end *)
    rewrite <- skipn_firstn_comm.
    destruct (sorted_prefix_split q df Hs Hq) as [Hq1 _]. rewrite Hq1.
    assert (Hpq : filter p df = filter p (filter q df)).
    { rewrite filter_filter. apply filter_ext_in. intros r _.
      unfold p, q. destruct (date_ltb (row_Date r) startDate) eqn:E.
      - rewrite (date_ltb_leb _ _ (date_ltb_leb_trans _ _ _ E Hord)). reflexivity.
      - now rewrite andb_false_r. }
    rewrite Hpq.
    destruct (sorted_prefix_split p (filter q df) (sorted_rows_filter q df Hs) Hp)
      as [_ Hp2].
    rewrite Hp2, filter_filter. apply filter_ext. intros r.
    unfold in_range, p, q, date_leb. rewrite andb_comm. reflexivity.
  - (* end < start: both sides are empty *)
    assert (Hlt : date_ltb endDate startDate = true).
    { unfold date_leb in Hord. now apply negb_false_iff in Hord. }
    assert (Hle : (length (filter q df) <= length (filter p df))%nat).
    { apply filter_length_le_impl. intros r Hr. unfold p, q in *.
      eapply date_leb_ltb_trans; eauto. }
    replace (length (filter q df) - length (filter p df))%nat with O by lia.
    simpl. symmetry. apply filter_none. apply Forall_forall. intros r _.
    unfold in_range. apply andb_false_iff.
    destruct (date_leb startDate (row_Date r)) eqn:E1; [right|now left].
    destruct (date_leb (row_Date r) endDate) eqn:E2; [|reflexivity].
    rewrite (date_leb_trans _ _ _ E1 E2) in Hord. discriminate.
Qed.

(** ** ClipData *)

Lemma count_true_map {A} (f : A -> bool) l :
  count_true (map f l) = Z.of_nat (length (filter f l)).
Proof.
  unfold count_true. f_equal.
  induction l as [|x l IH]; simpl; [reflexivity|].
  destruct (f x); simpl; now rewrite IH.
Qed.

Lemma missing_count_col df :
  count_true (map isna (values (col_Discharge df))) = missing_count df.
Proof.
  unfold values, col_Discharge, missing_count.
  rewrite !map_map. simpl. apply count_true_map.
Qed.

Lemma count_before_rows df d :
  count_true (map (fun x => date_ltb x d) (df_index df))
  = Z.of_nat (length (filter (fun r => date_ltb (row_Date r) d) df)).
Proof. unfold df_index. rewrite map_map. apply count_true_map. Qed.

Lemma count_after_rows df d :
  count_true (map (fun x => date_ltb d x) (df_index df))
  = Z.of_nat (length (filter (fun r => date_ltb d (row_Date r)) df)).
Proof. unfold df_index. rewrite map_map. apply count_true_map. Qed.

(** The two components of the result, for a sorted index. *)
Lemma ClipData_sorted df startDate endDate :
  sorted_rows df ->
  ClipData df startDate endDate
  = (filter (in_range startDate endDate) df,
     (missing_count df
      + Z.of_nat (length (filter (fun r => date_ltb (row_Date r) startDate) df))
      + Z.of_nat (length (filter (fun r => date_ltb endDate (row_Date r)) df)))%Z).
Proof.
  intros Hs. unfold ClipData.
  now rewrite missing_count_col, count_before_rows, count_after_rows,
    loc_slice_filter.
Qed.

Lemma filter_or_disjoint {A} (p q : A -> bool) l :
  (forall x, p x = true -> q x = false) ->
  length (filter (fun x => p x || q x) l)
  = (length (filter p l) + length (filter q l))%nat.
Proof.
  intros H. induction l as [|x l IH]; simpl; [reflexivity|].
  destruct (p x) eqn:Ep; simpl.
  - rewrite (H x Ep). simpl. lia.
  - destruct (q x); simpl; lia.
Qed.

Lemma filter_complement_length {A} (p : A -> bool) l :
  (length (filter p l) + length (filter (fun x => negb (p x)) l) = length l)%nat.
Proof.
  induction l as [|x l IH]; simpl; [reflexivity|].
  destruct (p x); simpl; lia.
Qed.

Lemma out_of_range_negb startDate endDate r :
  out_of_range startDate endDate r = negb (in_range startDate endDate r).
Proof.
  unfold out_of_range, in_range, date_leb.
  now rewrite negb_andb, !negb_involutive.
Qed.

(** X1.  With the bounds in order, the clip returns the rows dated in the range
    and adds to the missing count the number of rows it left out. *)
Lemma ClipData_ordered df startDate endDate :
  is_monotonic_increasing (df_index df) = true ->
  date_leb startDate endDate = true ->
  fst (ClipData df startDate endDate) = filter (in_range startDate endDate) df /\
  snd (ClipData df startDate endDate)
  = (missing_count df + excluded_count startDate endDate df)%Z /\
  (excluded_count startDate endDate df
   = Z.of_nat (length df)
     - Z.of_nat (length (fst (ClipData df startDate endDate))))%Z.
Proof.
  intros Hm Hord. apply monotonic_sorted_rows in Hm.
  rewrite (ClipData_sorted _ _ _ Hm). simpl.
  unfold excluded_count. split; [reflexivity|]. split.
  - unfold out_of_range. rewrite filter_or_disjoint.
    + lia.
    + intros r Hr. destruct (date_ltb endDate (row_Date r)) eqn:E; [|reflexivity].
      pose proof (date_ltb_trans _ _ _ E Hr) as Hlt.
      unfold date_leb in Hord. rewrite Hlt in Hord. discriminate.
  - pose proof (filter_complement_length (in_range startDate endDate) df) as Hc.
    rewrite (filter_ext _ _ (out_of_range_negb startDate endDate)). lia.
Qed.

(** With the bounds reversed, the clip is empty and every row is dated
    before the start or after the end; the count that is added is the number
    of rows before the start plus the number of rows after the end. *)
Lemma ClipData_reversed df startDate endDate :
  is_monotonic_increasing (df_index df) = true ->
  date_ltb endDate startDate = true ->
  fst (ClipData df startDate endDate) = [] /\
  excluded_count startDate endDate df = Z.of_nat (length df) /\
  snd (ClipData df startDate endDate)
  = (missing_count df
     + Z.of_nat (length (filter (fun r => date_ltb (row_Date r) startDate) df))
     + Z.of_nat (length (filter (fun r => date_ltb endDate (row_Date r)) df)))%Z.
Proof.
  intros Hm Hrev. apply monotonic_sorted_rows in Hm.
  rewrite (ClipData_sorted _ _ _ Hm). simpl.
  assert (Hout : forall r, out_of_range startDate endDate r = true).
  { intros r. unfold out_of_range. apply orb_true_iff.
    destruct (date_ltb (row_Date r) startDate) eqn:E; [now left|right].
    assert (Hle : date_leb startDate (row_Date r) = true)
      by (unfold date_leb; now rewrite E).
    eapply date_ltb_leb_trans; eauto. }
  split; [|split; [|reflexivity]].
  - apply filter_none. apply Forall_forall. intros r _.
    specialize (Hout r). rewrite out_of_range_negb in Hout.
    now apply negb_true_iff in Hout.
  - unfold excluded_count. f_equal. f_equal. apply filter_all.
    apply Forall_forall. intros r _. apply Hout.
Qed.

(** C1.  On the one-row table dated 2000-01-05, clipped to the reversed
    range from 2000-01-10 to 2000-01-01, the returned table is empty and the
    single row is the only one left out, but the returned count is 2: the
    row is counted once as dated before the start and once as dated after
    the end. *)
Theorem ClipData_reversed_range_counts_twice :
  is_monotonic_increasing (df_index one_day_table) = true /\
  fst (ClipData one_day_table (mkDate 2000 1 10) (mkDate 2000 1 1)) = [] /\
  missing_count one_day_table = 0%Z /\
  excluded_count (mkDate 2000 1 10) (mkDate 2000 1 1) one_day_table = 1%Z /\
  snd (ClipData one_day_table (mkDate 2000 1 10) (mkDate 2000 1 1)) = 2%Z.
Proof. repeat split. Qed.

Lemma filter_idem {A} (p : A -> bool) l : filter p (filter p l) = filter p l.
Proof.
  rewrite filter_filter. apply filter_ext. intros x. now destruct (p x).
Qed.

Lemma filter_length_le {A} (p : A -> bool) l :
  (length (filter p l) <= length l)%nat.
Proof.
  induction l as [|x l IH]; simpl; [lia|]. destruct (p x); simpl; lia.
Qed.

Lemma missing_count_filter p df :
  (missing_count (filter p df) <= missing_count df)%Z.
Proof.
  unfold missing_count. apply inj_le.
  rewrite filter_filter.
  apply filter_length_le_impl. intros r H. apply andb_true_iff in H. tauto.
Qed.

(** C9 fails as stated: clipping the one-row table to February 2000 returns
    the empty table with count 1; clipping that result again returns the
    empty table with count 0. *)
Lemma ClipData_twice_differs :
  ClipData (fst (ClipData one_day_table (mkDate 2000 2 1) (mkDate 2000 3 1)))
           (mkDate 2000 2 1) (mkDate 2000 3 1)
  <> ClipData one_day_table (mkDate 2000 2 1) (mkDate 2000 3 1).
Proof. vm_compute. discriminate. Qed.

(** C9, amended.  Clipping a clipped table again to the same range returns
    the same table; the count returned the second time is the number of
    missing Discharge values among the retained rows, which is at most the
    count returned the first time. *)
Theorem ClipData_idempotent_table df a b :
  is_monotonic_increasing (df_index df) = true ->
  fst (ClipData (fst (ClipData df a b)) a b) = fst (ClipData df a b) /\
  snd (ClipData (fst (ClipData df a b)) a b)
  = missing_count (fst (ClipData df a b)) /\
  (snd (ClipData (fst (ClipData df a b)) a b) <= snd (ClipData df a b))%Z.
Proof.
  intros Hm. apply monotonic_sorted_rows in Hm.
  rewrite (ClipData_sorted df a b Hm). cbn [fst snd].
  rewrite (ClipData_sorted _ a b (sorted_rows_filter _ _ Hm)). cbn [fst snd].
  assert (Hb : filter (fun r => date_ltb (row_Date r) a)
                 (filter (in_range a b) df) = []).
  { rewrite filter_filter. apply filter_none, Forall_forall. intros r _.
    unfold in_range, date_leb.
    destruct (date_ltb (row_Date r) a); simpl; [reflexivity|].
    now rewrite andb_false_r. }
  assert (Ha : filter (fun r => date_ltb b (row_Date r))
                 (filter (in_range a b) df) = []).
  { rewrite filter_filter. apply filter_none, Forall_forall. intros r _.
    unfold in_range, date_leb.
    destruct (date_ltb b (row_Date r)); simpl; [|now rewrite andb_false_r].
    now rewrite andb_false_r. }
  rewrite Hb, Ha, filter_idem. cbn [length].
  split; [reflexivity|]. split; [lia|].
  pose proof (missing_count_filter (in_range a b) df). lia.
Qed.

Lemma ClipData_idempotent_table_witness :
  is_monotonic_increasing (df_index four_day_table) = true /\
  length (fst (ClipData four_day_table (mkDate 2000 2 1) (mkDate 2000 2 29))) = 2%nat /\
  fst (ClipData (fst (ClipData four_day_table (mkDate 2000 2 1) (mkDate 2000 2 29)))
         (mkDate 2000 2 1) (mkDate 2000 2 29))
  = fst (ClipData four_day_table (mkDate 2000 2 1) (mkDate 2000 2 29)) /\
  snd (ClipData (fst (ClipData four_day_table (mkDate 2000 2 1) (mkDate 2000 2 29)))
         (mkDate 2000 2 1) (mkDate 2000 2 29))
  = missing_count (fst (ClipData four_day_table (mkDate 2000 2 1) (mkDate 2000 2 29))) /\
  (snd (ClipData (fst (ClipData four_day_table (mkDate 2000 2 1) (mkDate 2000 2 29)))
          (mkDate 2000 2 1) (mkDate 2000 2 29))
   <= snd (ClipData four_day_table (mkDate 2000 2 1) (mkDate 2000 2 29)))%Z.
Proof.
  split; [reflexivity|]. split; [reflexivity|].
  exact (ClipData_idempotent_table four_day_table (mkDate 2000 2 1) (mkDate 2000 2 29)
           eq_refl).
Defined.

(** ** ClipData and the caller's object *)

Lemma deref_alloc_old h df r x :
  deref h r = Some x -> deref (fst (alloc h df)) r = Some x.
Proof.
  unfold deref, alloc. simpl. intros H.
  rewrite nth_error_app1; [exact H|].
  apply nth_error_Some. congruence.
Qed.

Lemma deref_alloc_new h df :
  deref (fst (alloc h df)) (snd (alloc h df)) = Some df.
Proof.
  unfold deref, alloc. simpl.
  rewrite nth_error_app2 by lia. now rewrite Nat.sub_diag.
Qed.

Lemma deref_fresh h df : deref h (snd (alloc h df)) = None.
Proof. unfold deref, alloc. simpl. apply nth_error_None. lia. Qed.

(** The call on the object store computes what [ClipData] computes. *)
Lemma ClipData_call_value h r startDate endDate df :
  deref h r = Some df ->
  ClipData_call h r startDate endDate
  = Some (fst (alloc h (fst (ClipData df startDate endDate))),
          (snd (alloc h (fst (ClipData df startDate endDate))),
           snd (ClipData df startDate endDate))).
Proof. intros H. unfold ClipData_call. rewrite H. reflexivity. Qed.

(** C10.  A call of ClipData on a live object returns, and afterwards the
    object it received is the same table (same rows, hence the same count of
    missing Discharge values), as is every other object of the store; the
    table returned is a new object, distinct from the argument, that holds
    the clipped rows. *)
Theorem ClipData_call_keeps_argument h r startDate endDate df :
  deref h r = Some df ->
  exists h' r' mv,
    ClipData_call h r startDate endDate = Some (h', (r', mv)) /\
    deref h' r = Some df /\
    option_map missing_count (deref h' r) = option_map missing_count (deref h r) /\
    (forall r0 df0, deref h r0 = Some df0 -> deref h' r0 = Some df0) /\
    r' <> r /\
    deref h r' = None /\
    deref h' r' = Some (fst (ClipData df startDate endDate)) /\
    mv = snd (ClipData df startDate endDate).
Proof.
  intros H.
  eexists _, _, _. split; [apply ClipData_call_value; exact H|].
  set (new := fst (ClipData df startDate endDate)).
  assert (Hold : deref (fst (alloc h new)) r = Some df)
    by (apply deref_alloc_old; exact H).
  repeat split.
  - exact Hold.
  - now rewrite Hold, H.
  - intros r0 df0 H0. now apply deref_alloc_old.
  - intros E. pose proof (deref_fresh h new) as Hf. rewrite E, H in Hf. discriminate.
  - apply deref_fresh.
  - apply deref_alloc_new.
Qed.

Lemma ClipData_call_keeps_argument_witness :
  deref one_object_heap 0%nat = Some one_day_table /\
  exists h' r' mv,
    ClipData_call one_object_heap 0%nat (mkDate 2000 2 1) (mkDate 2000 3 1)
    = Some (h', (r', mv)) /\
    deref h' 0%nat = Some one_day_table.
Proof.
  split; [reflexivity|].
  destruct (ClipData_call_keeps_argument one_object_heap 0%nat
              (mkDate 2000 2 1) (mkDate 2000 3 1) one_day_table eq_refl)
    as (h' & r' & mv & Hcall & Hsame & _).
  exists h', r', mv. split; assumption.
Defined.

(** ** Rational arithmetic *)

Lemma Qlt_bool_iff x y : Qlt_bool x y = true <-> x < y.
Proof.
  unfold Qlt_bool. rewrite negb_true_iff, <- not_true_iff_false, Qle_bool_iff.
  split; [apply Qnot_le_lt | apply Qlt_not_le].
Qed.


Lemma inject_nat_pos n : (0 < n)%nat -> 0 < inject_Z (Z.of_nat n).
Proof. intros H. unfold Qlt. simpl. lia. Qed.

Lemma inject_nat_nonneg n : 0 <= inject_Z (Z.of_nat n).
Proof. unfold Qle. simpl. lia. Qed.

Lemma inject_nat_le a b : (a <= b)%nat -> inject_Z (Z.of_nat a) <= inject_Z (Z.of_nat b).
Proof. intros H. unfold Qle. simpl. lia. Qed.

Lemma inject_nat_zero n : inject_Z (Z.of_nat n) == 0 <-> n = O.
Proof. unfold Qeq. simpl. lia. Qed.

(** A ratio of counts [a/n] with [a <= n]. *)
Lemma count_ratio_bounds a n :
  (0 < n)%nat -> (a <= n)%nat ->
  0 <= inject_Z (Z.of_nat a) / inject_Z (Z.of_nat n) <= 1.
Proof.
  intros Hn Ha. pose proof (inject_nat_pos n Hn) as Hpos. split.
  - apply Qle_shift_div_l; [exact Hpos|]. rewrite Qmult_0_l. apply inject_nat_nonneg.
  - apply Qle_shift_div_r; [exact Hpos|]. rewrite Qmult_1_l. now apply inject_nat_le.
Qed.


(** ** float64 rounding *)

(** Proofs *)

Lemma pow2_pos e : 0 < pow2 e.
Proof. apply Qpower_0_lt. reflexivity. Qed.

Lemma pow2_add a b : pow2 (a + b) == pow2 a * pow2 b.
Proof. unfold pow2. apply Qpower_plus. discriminate. Qed.

Lemma pow2_succ a : pow2 (a + 1) == 2 * pow2 a.
Proof. rewrite pow2_add. change (pow2 1) with 2. ring. Qed.

Lemma pow2_le a b : (a <= b)%Z -> pow2 a <= pow2 b.
Proof. intros H. apply Qpower_le_compat_l; [exact H|discriminate]. Qed.

Lemma pow2_lt_inv a b : pow2 a < pow2 b -> (a < b)%Z.
Proof. intros H. apply (Qpower_lt_compat_l_inv 2); [exact H|reflexivity]. Qed.

Lemma pow2_inject a : (0 <= a)%Z -> inject_Z (2 ^ a) == pow2 a.
Proof. intros H. unfold pow2. now rewrite Zpower_Qpower. Qed.

Lemma pow2_sub a b : pow2 (a - b) == pow2 a / pow2 b.
Proof.
  unfold Z.sub. rewrite pow2_add. unfold pow2 at 2. rewrite Qpower_opp. reflexivity.
Qed.

Lemma log2_bounds_Q n :
  (0 < n)%Z -> pow2 (Z.log2 n) <= inject_Z n /\ inject_Z n < 2 * pow2 (Z.log2 n).
Proof.
  intros H. destruct (Z.log2_spec n H) as [H1 H2].
  pose proof (Z.log2_nonneg n) as Hnn.
  rewrite <- pow2_succ, <- !pow2_inject by lia. split.
  - rewrite <- Zle_Qle. exact H1.
  - rewrite <- Zlt_Qlt. replace (Z.log2 n + 1)%Z with (Z.succ (Z.log2 n)) by lia. exact H2.
Qed.

Lemma ilog2_spec q : 0 < q -> pow2 (ilog2 q) <= q /\ q < pow2 (ilog2 q + 1).
Proof.
  intros Hq. unfold ilog2.
  destruct q as [n d]. cbn [Qnum Qden].
  assert (Hn : (0 < n)%Z) by (unfold Qlt in Hq; simpl in Hq; lia).
  destruct (log2_bounds_Q n Hn) as [Ha1 Ha2].
  destruct (log2_bounds_Q (Zpos d) ltac:(lia)) as [Hb1 Hb2].
  set (a := Z.log2 n) in *. set (b := Z.log2 (Zpos d)) in *.
  pose proof (pow2_pos a) as Hpa. pose proof (pow2_pos b) as Hpb.
  assert (Hd : 0 < inject_Z (Zpos d)) by reflexivity.
  assert (Eq : n # d == inject_Z n / inject_Z (Zpos d)) by apply Qmake_Qdiv.
  destruct (Qle_bool (pow2 (a - b)) (n # d)) eqn:E.
  - apply Qle_bool_iff in E. split; [exact E|].
    replace (a - b + 1)%Z with ((a + 1) - b)%Z by lia.
    rewrite pow2_sub, pow2_succ, Eq.
    apply Qlt_shift_div_r; [exact Hd|].
    apply Qlt_le_trans with (2 * pow2 a); [exact Ha2|].
    setoid_replace (2 * pow2 a / pow2 b * inject_Z (Z.pos d))
      with (2 * pow2 a * (inject_Z (Z.pos d) / pow2 b)) by (field; lra).
    rewrite <- (Qmult_1_r (2 * pow2 a)) at 1.
    apply Qmult_le_l; [lra|]. apply Qle_shift_div_l; [exact Hpb|]. lra.
  - assert (Hlt : n # d < pow2 (a - b)).
    { apply Qnot_le_lt. intros C. apply Qle_bool_iff in C. congruence. }
    split.
    + replace (a - b - 1)%Z with (a - (b + 1))%Z by lia.
      rewrite pow2_sub, pow2_succ, Eq.
      apply Qle_shift_div_l; [exact Hd|].
      apply Qle_trans with (pow2 a); [|exact Ha1].
      setoid_replace (pow2 a / (2 * pow2 b) * inject_Z (Z.pos d))
        with (pow2 a * (inject_Z (Z.pos d) / (2 * pow2 b))) by (field; lra).
      rewrite <- (Qmult_1_r (pow2 a)) at 2.
      apply Qmult_le_l; [lra|]. apply Qle_shift_div_r; [lra|]. lra.
    + replace (a - b - 1 + 1)%Z with (a - b)%Z by lia. exact Hlt.
Qed.

Lemma ilog2_unique q k : pow2 k <= q -> q < pow2 (k + 1) -> ilog2 q = k.
Proof.
  intros H1 H2.
  assert (Hq : 0 < q) by (apply Qlt_le_trans with (pow2 k); [apply pow2_pos|exact H1]).
  destruct (ilog2_spec q Hq) as [H3 H4].
  assert (ilog2 q < k + 1)%Z by (apply pow2_lt_inv; lra).
  assert (k < ilog2 q + 1)%Z by (apply pow2_lt_inv; lra).
  lia.
Qed.

Lemma ilog2_comp x y : 0 < x -> x == y -> ilog2 x = ilog2 y.
Proof.
  intros Hx E. destruct (ilog2_spec x Hx) as [H1 H2].
  symmetry. apply ilog2_unique; rewrite <- E; assumption.
Qed.

Lemma ilog2_mono x y : 0 < x -> x <= y -> (ilog2 x <= ilog2 y)%Z.
Proof.
  intros Hx Hxy. assert (Hy : 0 < y) by lra.
  destruct (ilog2_spec x Hx) as [H1 _]. destruct (ilog2_spec y Hy) as [_ H2].
  assert (ilog2 x < ilog2 y + 1)%Z by (apply pow2_lt_inv; lra). lia.
Qed.

Lemma rhe_cases q :
  round_half_even q = Qfloor q \/ round_half_even q = (Qfloor q + 1)%Z.
Proof.
  unfold round_half_even.
  destruct (Qcompare (q - inject_Z (Qfloor q)) (1 # 2)); [|now left|now right].
  destruct (Z.even (Qfloor q)); [now left|now right].
Qed.

Lemma rhe_Z z : round_half_even (inject_Z z) = z.
Proof.
  unfold round_half_even. rewrite Qfloor_Z.
  destruct (Qcompare_spec (inject_Z z - inject_Z z) (1 # 2)) as [H|H|H];
    [exfalso|reflexivity|exfalso]; lra.
Qed.

Lemma rhe_comp x y : x == y -> round_half_even x = round_half_even y.
Proof.
  intros E. unfold round_half_even. rewrite (Qfloor_comp _ _ E).
  assert (E' : x - inject_Z (Qfloor y) == y - inject_Z (Qfloor y)) by (rewrite E; reflexivity).
  destruct (Qcompare_spec (x - inject_Z (Qfloor y)) (1 # 2)) as [H|H|H];
    destruct (Qcompare_spec (y - inject_Z (Qfloor y)) (1 # 2)) as [H'|H'|H'];
    try reflexivity; exfalso; lra.
Qed.

Lemma rhe_mono x y : x <= y -> (round_half_even x <= round_half_even y)%Z.
Proof.
  intros H. pose proof (Qfloor_resp_le x y H) as Hf.
  destruct (Z.eq_dec (Qfloor x) (Qfloor y)) as [E|E].
  - unfold round_half_even. rewrite E.
    destruct (Qcompare_spec (x - inject_Z (Qfloor y)) (1 # 2)) as [Hx|Hx|Hx];
      destruct (Qcompare_spec (y - inject_Z (Qfloor y)) (1 # 2)) as [Hy|Hy|Hy];
      try (exfalso; lra); try lia; destruct (Z.even (Qfloor y)); lia.
  - destruct (rhe_cases x) as [-> | ->]; destruct (rhe_cases y) as [-> | ->]; lia.
Qed.

Lemma rhe_ge n x : inject_Z n <= x -> (n <= round_half_even x)%Z.
Proof. intros H. rewrite <- (rhe_Z n). now apply rhe_mono. Qed.

Lemma rhe_le n x : x <= inject_Z n -> (round_half_even x <= n)%Z.
Proof. intros H. rewrite <- (rhe_Z n). now apply rhe_mono. Qed.

(** The exponent of the grid on which a positive value is rounded. *)

Lemma round64_pos_eq q :
  round64_pos q = inject_Z (round_half_even (q / pow2 (grid_exp q))) * pow2 (grid_exp q).
Proof. reflexivity. Qed.

Lemma scaled_bounds q :
  0 < q ->
  q / pow2 (grid_exp q) < inject_Z (2 ^ 53) /\
  ((-1074 < grid_exp q)%Z -> inject_Z (2 ^ 52) <= q / pow2 (grid_exp q)).
Proof.
  intros Hq. destruct (ilog2_spec q Hq) as [H1 H2].
  pose proof (pow2_pos (grid_exp q)) as Hp. split.
  - apply Qlt_shift_div_r; [exact Hp|].
    rewrite pow2_inject by lia. rewrite <- pow2_add.
    apply Qlt_le_trans with (pow2 (ilog2 q + 1)); [exact H2|].
    apply pow2_le. unfold grid_exp. lia.
  - intros He. apply Qle_shift_div_l; [exact Hp|].
    rewrite pow2_inject by lia. rewrite <- pow2_add.
    apply Qle_trans with (pow2 (ilog2 q)); [|exact H1].
    apply pow2_le. unfold grid_exp in *. lia.
Qed.

Lemma round64_pos_bounds q :
  0 < q ->
  (0 <= round_half_even (q / pow2 (grid_exp q)) <= 2 ^ 53)%Z /\
  ((-1074 < grid_exp q)%Z -> (2 ^ 52 <= round_half_even (q / pow2 (grid_exp q)))%Z).
Proof.
  intros Hq. destruct (scaled_bounds q Hq) as [H1 H2].
  pose proof (pow2_pos (grid_exp q)) as Hp.
  assert (H0 : 0 <= q / pow2 (grid_exp q)).
  { apply Qle_shift_div_l; [exact Hp|]. lra. }
  split; [split|].
  - apply rhe_ge. exact H0.
  - apply rhe_le. lra.
  - intros He. apply rhe_ge. now apply H2.
Qed.

Lemma round64_pos_nonneg q : 0 < q -> 0 <= round64_pos q.
Proof.
  intros Hq. rewrite round64_pos_eq.
  destruct (round64_pos_bounds q Hq) as [[H _] _].
  apply Qmult_le_0_compat; [|apply Qlt_le_weak, pow2_pos].
  change 0 with (inject_Z 0). now rewrite <- Zle_Qle.
Qed.

Lemma grid_exp_mono x y : 0 < x -> x <= y -> (grid_exp x <= grid_exp y)%Z.
Proof.
  intros Hx Hxy. pose proof (ilog2_mono x y Hx Hxy). unfold grid_exp. lia.
Qed.

Lemma grid_exp_comp x y : 0 < x -> x == y -> grid_exp x = grid_exp y.
Proof. intros Hx E. unfold grid_exp. now rewrite (ilog2_comp x y Hx E). Qed.

Lemma round64_pos_comp x y : 0 < x -> x == y -> round64_pos x == round64_pos y.
Proof.
  intros Hx E. rewrite !round64_pos_eq, (grid_exp_comp x y Hx E).
  rewrite (rhe_comp (x / pow2 (grid_exp y)) (y / pow2 (grid_exp y)));
    [reflexivity|now rewrite E].
Qed.

Lemma round64_pos_mono x y : 0 < x -> x <= y -> round64_pos x <= round64_pos y.
Proof.
  intros Hx Hxy. assert (Hy : 0 < y) by lra.
  pose proof (grid_exp_mono x y Hx Hxy) as He.
  rewrite !round64_pos_eq.
  destruct (Z.eq_dec (grid_exp x) (grid_exp y)) as [E|E].
  - rewrite E. apply Qmult_le_compat_r; [|apply Qlt_le_weak, pow2_pos].
    rewrite <- Zle_Qle. apply rhe_mono.
    apply Qmult_le_compat_r; [exact Hxy|].
    apply Qlt_le_weak, Qinv_lt_0_compat, pow2_pos.
  - destruct (round64_pos_bounds x Hx) as [[_ Hmx] _].
    destruct (round64_pos_bounds y Hy) as [_ Hmy].
    assert (Hgy : (-1074 < grid_exp y)%Z) by (unfold grid_exp in *; lia).
    specialize (Hmy Hgy).
    apply Qle_trans with (inject_Z (2 ^ 53) * pow2 (grid_exp x)).
    + apply Qmult_le_compat_r; [|apply Qlt_le_weak, pow2_pos].
      now rewrite <- Zle_Qle.
    + apply Qle_trans with (inject_Z (2 ^ 52) * pow2 (grid_exp y)).
      * rewrite (pow2_inject 53), (pow2_inject 52) by lia.
        rewrite <- !pow2_add. apply pow2_le. lia.
      * apply Qmult_le_compat_r; [|apply Qlt_le_weak, pow2_pos].
        now rewrite <- Zle_Qle.
Qed.

(** A positive value on the grid of doubles is left as it is. *)
Lemma round64_pos_fix M e :
  (0 < M < 2 ^ 53)%Z -> (-1074 <= e)%Z ->
  round64_pos (inject_Z M * pow2 e) == inject_Z M * pow2 e.
Proof.
  intros HM He. set (z := inject_Z M * pow2 e).
  assert (Hz : 0 < z).
  { unfold z. apply Qmult_lt_0_compat; [|apply pow2_pos].
    change 0 with (inject_Z 0). rewrite <- Zlt_Qlt. lia. }
  destruct (ilog2_spec z Hz) as [H1 _].
  assert (Hlt : z < pow2 (53 + e)).
  { unfold z. rewrite pow2_add, <- (pow2_inject 53) by lia.
    apply Qmult_lt_compat_r; [apply pow2_pos|]. rewrite <- Zlt_Qlt. lia. }
  assert (HL : (ilog2 z < 53 + e)%Z) by (apply pow2_lt_inv; lra).
  assert (Hg : (grid_exp z <= e)%Z) by (unfold grid_exp; lia).
  rewrite round64_pos_eq. fold z.
  set (g := grid_exp z) in *.
  assert (Hint : z / pow2 g == inject_Z (M * 2 ^ (e - g))).
  { rewrite inject_Z_mult. rewrite pow2_inject by lia. rewrite pow2_sub.
    unfold z. field. pose proof (pow2_pos g). lra. }
  rewrite (rhe_comp _ _ Hint), rhe_Z.
  rewrite inject_Z_mult. rewrite pow2_inject by lia. rewrite pow2_sub. unfold z.
  field. pose proof (pow2_pos g). lra.
Qed.

(** The values of the float64 grid (overflow aside). *)

Lemma round64_pos_case x : 0 < x -> round64 x == round64_pos x.
Proof.
  intros H. unfold round64.
  destruct (Qcompare_spec x 0) as [E|E|E]; [exfalso; lra|exfalso; lra|].
  apply Qred_correct.
Qed.

Lemma round64_neg_case x : x < 0 -> round64 x == - round64_pos (- x).
Proof.
  intros H. unfold round64.
  destruct (Qcompare_spec x 0) as [E|E|E]; [exfalso; lra| |exfalso; lra].
  apply Qred_correct.
Qed.

Lemma round64_zero_case x : x == 0 -> round64 x = 0.
Proof.
  intros H. unfold round64.
  destruct (Qcompare_spec x 0) as [E|E|E]; [reflexivity|exfalso; lra|exfalso; lra].
Qed.

Lemma round64_comp x y : x == y -> round64 x = round64 y.
Proof.
  intros E. unfold round64. rewrite <- E.
  destruct (Qcompare_spec x 0) as [H|H|H]; [reflexivity| |].
  - apply Qred_complete. apply Qopp_comp, round64_pos_comp; [lra|now rewrite E].
  - apply Qred_complete. now apply round64_pos_comp.
Qed.

Lemma round64_nonneg x : 0 <= x -> 0 <= round64 x.
Proof.
  intros H. destruct (Qcompare_spec x 0) as [E|E|E].
  - rewrite (round64_zero_case x E). lra.
  - lra.
  - rewrite (round64_pos_case x E). now apply round64_pos_nonneg.
Qed.

Lemma round64_nonpos x : x <= 0 -> round64 x <= 0.
Proof.
  intros H. destruct (Qcompare_spec x 0) as [E|E|E].
  - rewrite (round64_zero_case x E). lra.
  - rewrite (round64_neg_case x E).
    assert (0 <= round64_pos (- x)) by (apply round64_pos_nonneg; lra). lra.
  - lra.
Qed.

(** Rounding is monotone. *)
Lemma round64_mono x y : x <= y -> round64 x <= round64 y.
Proof.
  intros H. destruct (Qcompare_spec x 0) as [Ex|Ex|Ex].
  - rewrite (round64_zero_case x Ex). apply round64_nonneg. lra.
  - destruct (Qlt_le_dec y 0) as [Ey|Ey].
    + rewrite (round64_neg_case x Ex), (round64_neg_case y Ey).
      assert (round64_pos (- y) <= round64_pos (- x))
        by (apply round64_pos_mono; lra).
      lra.
    + apply Qle_trans with 0; [apply round64_nonpos; lra|now apply round64_nonneg].
  - assert (Ey : 0 < y) by lra.
    rewrite (round64_pos_case x Ex), (round64_pos_case y Ey).
    now apply round64_pos_mono.
Qed.

Lemma on_grid_opp d : on_grid d -> on_grid (- d).
Proof.
  intros (M & e & HM & He & E). exists (- M)%Z, e.
  split; [lia|]. split; [exact He|]. rewrite E, inject_Z_opp. ring.
Qed.

Lemma round64_pos_on_grid x : 0 < x -> on_grid (round64_pos x).
Proof.
  intros Hx. rewrite round64_pos_eq.
  destruct (round64_pos_bounds x Hx) as [[H0 H53] _].
  set (M := round_half_even (x / pow2 (grid_exp x))) in *.
  assert (He : (-1074 <= grid_exp x)%Z) by (unfold grid_exp; lia).
  destruct (Z.eq_dec M (2 ^ 53)) as [E|E].
  - exists (2 ^ 52)%Z, (grid_exp x + 1)%Z. split; [lia|]. split; [lia|].
    rewrite E, pow2_succ. change (inject_Z (2 ^ 53)) with (2 * inject_Z (2 ^ 52)). ring.
  - exists M, (grid_exp x). split; [lia|]. split; [exact He|reflexivity].
Qed.

Lemma round64_on_grid x : on_grid (round64 x).
Proof.
  destruct (Qcompare_spec x 0) as [E|E|E].
  - rewrite (round64_zero_case x E). exists 0%Z, 0%Z. split; [lia|]. split; [lia|]. ring.
  - assert (H : on_grid (- round64_pos (- x)))
      by (apply on_grid_opp, round64_pos_on_grid; lra).
    destruct H as (M & e & HM & He & Eq). exists M, e.
    split; [exact HM|]. split; [exact He|]. now rewrite (round64_neg_case x E).
  - destruct (round64_pos_on_grid x E) as (M & e & HM & He & Eq). exists M, e.
    split; [exact HM|]. split; [exact He|]. now rewrite (round64_pos_case x E).
Qed.

(** A value of the grid is its own rounding. *)
Lemma round64_fix d : on_grid d -> round64 d == d.
Proof.
  intros (M & e & HM & He & E). rewrite (round64_comp d _ E).
  pose proof (pow2_pos e) as Hp.
  destruct (Z.lt_trichotomy M 0) as [Hneg|[Hz|Hpos]].
  - assert (Hlt : inject_Z M * pow2 e < 0).
    { setoid_replace (inject_Z M * pow2 e) with (- (inject_Z (- M) * pow2 e))
        by (rewrite inject_Z_opp; ring).
      assert (0 < inject_Z (- M) * pow2 e).
      { apply Qmult_lt_0_compat; [|exact Hp].
        change 0 with (inject_Z 0). rewrite <- Zlt_Qlt. lia. }
      lra. }
    rewrite (round64_neg_case _ Hlt).
    assert (Eo : - (inject_Z M * pow2 e) == inject_Z (- M) * pow2 e)
      by (rewrite inject_Z_opp; ring).
    assert (Hpos' : 0 < - (inject_Z M * pow2 e)) by lra.
    rewrite (round64_pos_comp _ _ Hpos' Eo), round64_pos_fix by lia.
    rewrite <- Eo, E. ring.
  - subst M. rewrite round64_zero_case; [rewrite E|]; ring.
  - assert (Hgt : 0 < inject_Z M * pow2 e).
    { apply Qmult_lt_0_compat; [|exact Hp].
      change 0 with (inject_Z 0). rewrite <- Zlt_Qlt. lia. }
    rewrite (round64_pos_case _ Hgt), round64_pos_fix by lia. now rewrite E.
Qed.

Lemma round64_idem x : round64 (round64 x) == round64 x.
Proof. apply round64_fix, round64_on_grid. Qed.

Lemma on_grid_twice d : on_grid d -> on_grid (2 * d).
Proof.
  intros (M & e & HM & He & E). exists M, (e + 1)%Z.
  split; [exact HM|]. split; [lia|]. rewrite E, pow2_succ. ring.
Qed.

(** Rounding never crosses a value of the grid. *)
Lemma round64_ge_grid d x : on_grid d -> d <= x -> d <= round64 x.
Proof.
  intros Hd H. rewrite <- (round64_fix d Hd). now apply round64_mono.
Qed.

Lemma round64_le_grid d x : on_grid d -> x <= d -> round64 x <= d.
Proof.
  intros Hd H. rewrite <- (round64_fix d Hd). now apply round64_mono.
Qed.

(** ** Series primitives *)

Lemma select_index_length (s : Series) (f : cell -> bool) :
  length (select_index s (map f (values s))) = length (filter f (values s)).
Proof.
  unfold select_index, index, values. rewrite length_map.
  induction s as [|[d v] s IH]; simpl; [reflexivity|].
  destruct (f v); simpl; now rewrite IH.
Qed.

Lemma valid_all (l : list cell) :
  forallb notna l = true -> l = map Some (valid l).
Proof.
  induction l as [|[q|] l IH]; simpl; intros H; [reflexivity| |discriminate].
  now rewrite <- IH.
Qed.

Lemma valid_length_no_missing (s : Series) :
  no_missing s = true -> length (observations s) = length s.
Proof.
  unfold no_missing, observations. intros H.
  rewrite <- (length_map snd s). fold (values s).
  rewrite (valid_all _ H) at 2. now rewrite length_map.
Qed.

Lemma count_above_valid (m : Q) (l : list cell) :
  length (filter (fun v => cell_gtb v (Some m)) l)
  = length (filter (fun x => Qlt_bool m x) (map round64 (valid l))).
Proof.
  induction l as [|[q|] l IH]; simpl; [reflexivity| |exact IH].
  destruct (Qlt_bool m (round64 q)); simpl; now rewrite IH.
Qed.


Lemma doubles_length (s : Series) : length (doubles s) = length (observations s).
Proof. unfold doubles. apply length_map. Qed.

Lemma doubles_on_grid (s : Series) x : In x (doubles s) -> on_grid x.
Proof.
  unfold doubles. rewrite in_map_iff. intros (q & <- & _). apply round64_on_grid.
Qed.

Lemma filter_nil_iff {A} (p : A -> bool) l :
  length (filter p l) = O <-> forall x, In x l -> p x = false.
Proof.
  induction l as [|a l IH]; simpl.
  - split; [intros _ x []|reflexivity].
  - destruct (p a) eqn:E; simpl.
    + split; [discriminate|]. intros H. specialize (H a (or_introl eq_refl)). congruence.
    + rewrite IH. split.
      * intros H x [<-|Hx]; auto.
      * intros H x Hx. apply H. now right.
Qed.

(** ** CalcTqmean *)





(** C3 fails as stated: on the empty series the result is not a NaN. *)
Lemma CalcTqmean_empty_not_NaN : CalcTqmean [] <> Ret NaN.
Proof. discriminate. Qed.

(** C3, amended.  CalcTqmean raises ZeroDivisionError on the empty series,
    and on no other series. *)
Theorem CalcTqmean_empty_raises (S : Series) :
  CalcTqmean S = Raise ZeroDivisionError <-> S = [].
Proof.
  unfold CalcTqmean, py_truediv. destruct S as [|p S]; simpl.
  - tauto.
  - split; discriminate.
Qed.

(** ** CalcRBindex *)



Lemma values_combine (idx : list Date) (vs : list cell) :
  length idx = length vs -> values (combine idx vs) = vs.
Proof.
  unfold values. revert vs.
  induction idx as [|d idx IH]; intros [|v vs] H; simpl in *; try discriminate;
    [reflexivity|].
  f_equal. apply IH. lia.
Qed.














(** ** Calc7Q *)

Lemma rolling_mean_values_length w l :
  length (rolling_mean_values w l) = length l.
Proof. unfold rolling_mean_values. now rewrite length_map, length_seq. Qed.

Lemma values_Series_rolling_mean w (s : Series) :
  values (Series_rolling_mean w s) = rolling_mean_values w (values s).
Proof.
  unfold Series_rolling_mean. apply values_combine.
  unfold index, values. now rewrite rolling_mean_values_length, !length_map.
Qed.

Lemma valid_In q (l : list cell) : In q (valid l) <-> In (Some q) l.
Proof.
  induction l as [|[x|] l IH]; simpl.
  - tauto.
  - rewrite IH. split; intros [H|H]; auto; left; congruence.
  - rewrite IH. split; [auto|]. intros [H|H]; [discriminate|exact H].
Qed.

Lemma fold_min_In l x :
  let r := fold_left (fun m y => if Qle_bool y m then y else m) l x in
  r = x \/ In r l.
Proof.
  revert x. induction l as [|a l IH]; intros x; simpl; [now left|].
  destruct (IH (if Qle_bool a x then a else x)) as [H|H]; [|now right; right].
  rewrite H. destruct (Qle_bool a x); [right; now left|now left].
Qed.

Lemma Qmin_list_In l q : Qmin_list l = Some q -> In q l.
Proof.
  destruct l as [|x l]; simpl; [discriminate|]. intros H. injection H as <-.
  destruct (fold_min_In l x) as [H|H]; [left; now rewrite H|now right].
Qed.

Lemma fold_max_ge l x :
  let r := fold_left (fun m y => if Qle_bool m y then y else m) l x in
  x <= r /\ forall y, In y l -> y <= r.
Proof.
  revert x. induction l as [|a l IH]; intros x; simpl.
  - split; [lra|intros y []].
  - destruct (IH (if Qle_bool x a then a else x)) as [H1 H2].
    destruct (Qle_bool x a) eqn:E.
    + apply Qle_bool_iff in E. split; [lra|].
      intros y [<-|Hy]; [exact H1|now apply H2].
    + assert (a <= x).
      { apply Qlt_le_weak, Qnot_le_lt. intros C. apply Qle_bool_iff in C. congruence. }
      split; [exact H1|]. intros y [<-|Hy]; [lra|now apply H2].
Qed.

Lemma Qmax_list_ge l m : Qmax_list l = Some m -> forall x, In x l -> x <= m.
Proof.
  destruct l as [|a l]; simpl; [discriminate|]. intros H. injection H as <-.
  destruct (fold_max_ge l a) as [H1 H2]. intros x [<-|Hx]; auto.
Qed.

Lemma Qsum_le_bound l m :
  (forall x, In x l -> x <= m) ->
  Qsum l <= inject_Z (Z.of_nat (length l)) * m.
Proof.
  induction l as [|a l IH]; intros H.
  - simpl. change (inject_Z 0) with 0. lra.
  - assert (Ha : a <= m) by (apply H; now left).
    assert (Hl : Qsum l <= inject_Z (Z.of_nat (length l)) * m)
      by (apply IH; intros x Hx; apply H; now right).
    change (Qsum (a :: l)) with (a + Qsum l).
    replace (Z.of_nat (length (a :: l))) with (1 + Z.of_nat (length l))%Z
      by (simpl length; lia).
    rewrite inject_Z_plus. change (inject_Z 1) with 1. lra.
Qed.

(** A mean never exceeds a bound of its terms. *)
Lemma mean_of_le_bound l m q :
  mean_of l = Some q -> (forall x, In x l -> x <= m) -> q <= m.
Proof.
  intros H Hall.
  assert (Hq : q = Qsum l / inject_Z (Z.of_nat (length l)) /\ (0 < length l)%nat).
  { destruct l as [|a l']; [discriminate|]. injection H as <-.
    split; [reflexivity|simpl; lia]. }
  destruct Hq as [-> Hpos].
  apply Qle_shift_div_r.
  - now apply inject_nat_pos.
  - rewrite Qmult_comm. now apply Qsum_le_bound.
Qed.

Lemma In_firstn_skipn {A} (x : A) n k l : In x (firstn n (skipn k l)) -> In x l.
Proof.
  intros H.
  rewrite <- (firstn_skipn k l). apply in_or_app. right.
  rewrite <- (firstn_skipn n (skipn k l)). apply in_or_app. now left.
Qed.

(** Every entry of the rolling mean is NaN or the mean of observations of
    the series. *)
Lemma rolling_mean_entry w l q :
  In (Some q) (rolling_mean_values w l) ->
  exists win, mean_of win = Some q /\ forall x, In x win -> In (Some x) l.
Proof.
  unfold rolling_mean_values. intros H. apply in_map_iff in H.
  destruct H as (i & Hi & _).
  destruct (i + 1 <? w)%nat; [discriminate|].
  unfold window_mean in Hi.
  destruct (forallb notna _ && _); [|discriminate].
  eexists. split; [exact Hi|].
  intros x Hx. apply valid_In in Hx. eapply In_firstn_skipn; eauto.
Qed.

(** Whenever Calc7Q returns a value, the maximum of the series exists and
    bounds it. *)
Lemma Calc7Q_value_le_max (S : Series) q :
  Calc7Q S = Some q -> exists m, Series_max S = Some m /\ q <= m.
Proof.
  unfold Calc7Q, Series_min, Series_max. rewrite values_Series_rolling_mean.
  intros H. apply Qmin_list_In, valid_In, rolling_mean_entry in H.
  destruct H as (win & Hmean & Hsub).
  destruct (Qmax_list (valid (values S))) as [m|] eqn:Hmax.
  - exists m. split; [reflexivity|].
    apply (mean_of_le_bound win m q Hmean).
    intros x Hx. apply (Qmax_list_ge _ _ Hmax). apply valid_In. now apply Hsub.
  - destruct win as [|a win]; [discriminate|].
    assert (Ha : In a (valid (values S))) by (apply valid_In, Hsub; now left).
    destruct (valid (values S)); [contradiction|discriminate].
Qed.

(** X9.  With fewer than seven observations no window is complete. *)
Lemma Calc7Q_short (S : Series) : (length S < 7)%nat -> Calc7Q S = None.
Proof.
  intros Hlen. destruct (Calc7Q S) as [q|] eqn:E; [|reflexivity]. exfalso.
  unfold Calc7Q, Series_min in E. rewrite values_Series_rolling_mean in E.
  apply Qmin_list_In, valid_In in E.
  unfold rolling_mean_values in E. apply in_map_iff in E.
  destruct E as (i & Hi & Hin). apply in_seq in Hin.
  unfold values in Hin. rewrite length_map in Hin.
  destruct (i + 1 <? 7)%nat eqn:Ei; [discriminate|].
  apply Nat.ltb_ge in Ei. lia.
Qed.

Lemma forallb_firstn {A} (p : A -> bool) n l :
  forallb p l = true -> forallb p (firstn n l) = true.
Proof.
  revert n. induction l as [|a l IH]; intros [|n] H; simpl in *; try reflexivity.
  apply andb_true_iff in H. destruct H as [Ha Hl]. now rewrite Ha, IH.
Qed.

(** With seven observations or more and none missing, a window is
    complete. *)
Lemma Calc7Q_defined (S : Series) :
  (7 <= length S)%nat -> no_missing S = true -> Calc7Q S <> None.
Proof.
  intros Hlen Hnm.
  assert (Hvlen : length (values S) = length S) by (unfold values; apply length_map).
  assert (Hwin : exists q,
             window_mean 7 (firstn 7 (skipn 0 (values S))) = Some q).
  { unfold window_mean. simpl skipn.
    rewrite (forallb_firstn notna 7 _ Hnm).
    assert (Hl : length (firstn 7 (values S)) = 7%nat)
      by (rewrite length_firstn; lia).
    rewrite Hl. simpl andb.
    assert (Hv : length (valid (firstn 7 (values S))) = 7%nat).
    { rewrite (valid_all _ (forallb_firstn notna 7 _ Hnm)) in Hl.
      now rewrite length_map in Hl. }
    destruct (valid (firstn 7 (values S))); [discriminate|].
    eexists. reflexivity. }
  destruct Hwin as (q & Hq).
  assert (Hin : In (Some q) (rolling_mean_values 7 (values S))).
  { unfold rolling_mean_values. apply in_map_iff. exists 6%nat. split.
    - simpl Nat.ltb. simpl Nat.sub. exact Hq.
    - apply in_seq. lia. }
  apply valid_In in Hin.
  unfold Calc7Q, Series_min. rewrite values_Series_rolling_mean.
  destruct (valid (rolling_mean_values 7 (values S))); [contradiction|discriminate].
Qed.

(** C5 fails as stated: the three-day series has no complete window, its 7Q
    is NaN, and NaN is not less than or equal to the maximum. *)
Lemma Calc7Q_three_days_not_le_max :
  Calc7Q three_day_series = None /\
  Series_max three_day_series = Some 6 /\
  num_leb (num_of_cell (Calc7Q three_day_series))
          (num_of_cell (Series_max three_day_series)) = false.
Proof. repeat split. Qed.

(** C5, amended.  On a series of at least seven observations without
    missing values, Calc7Q returns a value, the minimum of the trailing
    seven-observation means, and it is at most the maximum of the series. *)
Theorem Calc7Q_le_max (S : Series) :
  (7 <= length S)%nat -> no_missing S = true ->
  exists q m,
    Calc7Q S = Some q /\ Series_max S = Some m /\ q <= m /\
    num_leb (num_of_cell (Calc7Q S)) (num_of_cell (Series_max S)) = true.
Proof.
  intros Hlen Hnm.
  destruct (Calc7Q S) as [q|] eqn:E.
  - destruct (Calc7Q_value_le_max S q E) as (m & Hm & Hle).
    exists q, m. rewrite Hm. repeat split; try assumption.
    simpl. now apply Qle_bool_iff.
  - exfalso. now apply (Calc7Q_defined S Hlen Hnm).
Qed.

Lemma Calc7Q_le_max_witness :
  (7 <= length seven_day_series)%nat /\ no_missing seven_day_series = true /\
  exists q m,
    Calc7Q seven_day_series = Some q /\ Series_max seven_day_series = Some m /\
    q <= m.
Proof.
  split; [simpl; lia|]. split; [reflexivity|].
  destruct (Calc7Q_le_max seven_day_series) as (q & m & Hq & Hm & Hle & _);
    [simpl; lia|reflexivity|].
  exists q, m. repeat split; assumption.
Defined.

(** ** Sorting and the median *)

Lemma Qinsert_perm x l : Permutation (x :: l) (Qinsert x l).
Proof.
  induction l as [|y l IH]; simpl; [apply Permutation_refl|].
  destruct (Qle_bool x y); [apply Permutation_refl|].
  eapply perm_trans; [apply perm_swap|]. now apply perm_skip.
Qed.

Lemma Qsort_perm l : Permutation l (Qsort l).
Proof.
  induction l as [|x l IH]; simpl; [constructor|].
  eapply perm_trans; [apply perm_skip, IH|]. apply Qinsert_perm.
Qed.

Lemma Qsort_length l : length (Qsort l) = length l.
Proof. symmetry. apply Permutation_length, Qsort_perm. Qed.

Lemma Qinsert_sorted x l :
  StronglySorted Qle l -> StronglySorted Qle (Qinsert x l).
Proof.
  induction 1 as [|y l Hs IH Hall]; simpl.
  - constructor; constructor.
  - destruct (Qle_bool x y) eqn:E.
    + apply Qle_bool_iff in E. constructor.
      * now constructor.
      * constructor; [exact E|].
        eapply Forall_impl; [|exact Hall]. intros z Hz. lra.
    + assert (Hyx : y <= x).
      { apply Qlt_le_weak, Qnot_le_lt. intros C. apply Qle_bool_iff in C. congruence. }
      constructor; [exact IH|].
      apply Forall_forall. intros z Hz.
      apply (Permutation_in _ (Permutation_sym (Qinsert_perm x l))) in Hz.
      destruct Hz as [<-|Hz]; [exact Hyx|].
      rewrite Forall_forall in Hall. now apply Hall.
Qed.

Lemma Qsort_sorted l : StronglySorted Qle (Qsort l).
Proof.
  induction l as [|x l IH]; simpl; [constructor|]. now apply Qinsert_sorted.
Qed.

Lemma filter_length_perm {A} (p : A -> bool) l l' :
  Permutation l l' -> length (filter p l) = length (filter p l').
Proof.
  induction 1 as [|x l l' _ IH|x y l|l l' l'' _ IH1 _ IH2]; simpl.
  - reflexivity.
  - destruct (p x); simpl; now rewrite IH.
  - destruct (p x), (p y); reflexivity.
  - congruence.
Qed.

(** In a sorted list, the entry at position [k] has at least [k+1] entries
    at most it and at least [n-k] entries at least it. *)
Lemma sorted_rank s k :
  StronglySorted Qle s -> (k < length s)%nat ->
  (k + 1 <= count_le (nth k s 0%Q) s)%nat /\
  (length s - k <= count_ge (nth k s 0%Q) s)%nat.
Proof.
  intros Hs. revert k. unfold count_le, count_ge.
  induction Hs as [|a s Hs IH Hall]; intros k Hk; simpl in Hk; [lia|].
  destruct k as [|k].
  - simpl nth. simpl filter.
    assert (Hrefl : Qle_bool a a = true) by (apply Qle_bool_iff; lra).
    rewrite Hrefl. split; [simpl; lia|].
    rewrite (filter_all (fun x => Qle_bool a x) s).
    + simpl. lia.
    + eapply Forall_impl; [|exact Hall]. intros x Hx. now apply Qle_bool_iff.
  - simpl nth. assert (Hk' : (k < length s)%nat) by lia.
    destruct (IH k Hk') as [IH1 IH2].
    assert (Ha : Qle_bool a (nth k s 0) = true).
    { apply Qle_bool_iff. rewrite Forall_forall in Hall. apply Hall.
      now apply nth_In. }
    simpl filter. rewrite Ha. split; [simpl; lia|].
    destruct (Qle_bool (nth k s 0) a); simpl; lia.
Qed.

Lemma sorted_nth_le s i j :
  StronglySorted Qle s -> (i <= j)%nat -> (j < length s)%nat ->
  nth i s 0 <= nth j s 0.
Proof.
  intros Hs. revert i j.
  induction Hs as [|a s Hs IH Hall]; intros i j Hij Hj; simpl in Hj; [lia|].
  destruct j as [|j].
  - replace i with O by lia. simpl. lra.
  - destruct i as [|i]; simpl.
    + rewrite Forall_forall in Hall. apply Hall. apply nth_In. lia.
    + apply IH; lia.
Qed.

Lemma count_le_mono m m' l : m <= m' -> (count_le m l <= count_le m' l)%nat.
Proof.
  intros H. apply filter_length_le_impl. intros x Hx.
  apply Qle_bool_iff in Hx. apply Qle_bool_iff. lra.
Qed.

Lemma count_ge_mono m m' l : m' <= m -> (count_ge m l <= count_ge m' l)%nat.
Proof.
  intros H. apply filter_length_le_impl. intros x Hx.
  apply Qle_bool_iff in Hx. apply Qle_bool_iff. lra.
Qed.

Lemma half_even n : Nat.even n = true -> (2 * (n / 2) = n)%nat.
Proof.
  intros H. apply Nat.even_spec in H. destruct H as [k ->].
  rewrite (Nat.mul_comm 2 k), Nat.div_mul by lia. lia.
Qed.

Lemma half_odd n : Nat.even n = false -> (2 * (n / 2) + 1 = n)%nat.
Proof.
  intros H.
  assert (H1 : Nat.odd n = true) by (rewrite <- Nat.negb_even, H; reflexivity).
  apply Nat.odd_spec in H1. destruct H1 as [k ->].
  rewrite (Nat.mul_comm 2 k), Nat.div_add_l by lia. simpl. lia.
Qed.

Lemma float_midpoint_between lo hi :
  on_grid lo -> on_grid hi -> lo <= hi ->
  lo <= fdiv (fadd lo hi) 2 <= hi.
Proof.
  intros Hlo Hhi H. unfold fdiv, fadd.
  assert (H1 : 2 * lo <= round64 (lo + hi))
    by (apply round64_ge_grid; [now apply on_grid_twice|lra]).
  assert (H2 : round64 (lo + hi) <= 2 * hi)
    by (apply round64_le_grid; [now apply on_grid_twice|lra]).
  split.
  - apply round64_ge_grid; [exact Hlo|]. apply Qle_shift_div_l; lra.
  - apply round64_le_grid; [exact Hhi|]. apply Qle_shift_div_r; lra.
Qed.

(** The value computed from the sorted doubles is a median of the list, and
    a double. *)
Lemma median_of_is_median l :
  (forall x, In x l -> on_grid x) ->
  l <> [] -> exists m, median_of l = Some m /\ is_median m l /\ on_grid m.
Proof.
  intros Hgrid Hne. unfold median_of.
  pose proof (Qsort_sorted l) as Hs. pose proof (Qsort_perm l) as Hp.
  pose proof (Qsort_length l) as Hlen.
  assert (Hcount : forall m, count_le m l = count_le m (Qsort l) /\
                             count_ge m l = count_ge m (Qsort l)).
  { intros m. unfold count_le, count_ge.
    split; apply filter_length_perm, Hp. }
  set (s := Qsort l) in *. set (n := length s) in *.
  assert (Hs_grid : forall i, (i < length s)%nat -> on_grid (nth i s 0)).
  { intros i Hi. apply Hgrid. apply (Permutation_in _ (Permutation_sym Hp)).
    now apply nth_In. }
  assert (Hn : (0 < n)%nat) by (rewrite Hlen; destruct l; [congruence|simpl; lia]).
  destruct n as [|n'] eqn:En; [lia|]. rewrite <- En in *. clear n' En.
  unfold is_median. rewrite <- Hlen.
  destruct (Nat.even n) eqn:Ev.
  - pose proof (half_even n Ev) as Hh.
    set (lo := nth (n / 2 - 1) s 0). set (hi := nth (n / 2) s 0).
    exists (fdiv (fadd lo hi) 2). split; [reflexivity|].
    assert (Hlohi : lo <= hi) by (apply sorted_nth_le; [exact Hs|lia|fold n; lia]).
    assert (Hglo : on_grid lo) by (apply Hs_grid; fold n; lia).
    assert (Hghi : on_grid hi) by (apply Hs_grid; fold n; lia).
    destruct (float_midpoint_between lo hi Hglo Hghi Hlohi) as [Hm1 Hm2].
    destruct (sorted_rank s (n / 2 - 1) Hs) as [Hr1 _]; [fold n; lia|].
    destruct (sorted_rank s (n / 2) Hs) as [_ Hr2]; [fold n; lia|].
    fold lo in Hr1. fold hi in Hr2. fold n in Hr2.
    destruct (Hcount (fdiv (fadd lo hi) 2)) as [-> ->].
    pose proof (count_le_mono lo (fdiv (fadd lo hi) 2) s Hm1).
    pose proof (count_ge_mono hi (fdiv (fadd lo hi) 2) s Hm2).
    split; [split; lia|]. apply round64_on_grid.
  - pose proof (half_odd n Ev) as Hh.
    exists (nth (n / 2) s 0). split; [reflexivity|].
    destruct (sorted_rank s (n / 2) Hs) as [Hr1 Hr2]; [fold n; lia|].
    fold n in Hr2.
    destruct (Hcount (nth (n / 2) s 0)) as [-> ->].
    split; [split; lia|]. apply Hs_grid. fold n. lia.
Qed.

(** ** CalcExceed3TimesMedian *)

Lemma observations_nonempty (S : Series) :
  S <> [] -> no_missing S = true -> observations S <> [].
Proof.
  intros Hne Hnm Hobs. pose proof (valid_length_no_missing S Hnm) as Hlen.
  rewrite Hobs in Hlen. destruct S; [congruence|discriminate].
Qed.

Lemma doubles_nonempty (S : Series) :
  S <> [] -> no_missing S = true -> doubles S <> [].
Proof.
  intros Hne Hnm Hd. apply (observations_nonempty S Hne Hnm).
  unfold doubles in Hd. now apply map_eq_nil in Hd.
Qed.

(** The count in terms of the float64 observations, whatever the series. *)
Lemma CalcExceed3TimesMedian_observations (S : Series) :
  (observations S = [] -> CalcExceed3TimesMedian S = 0%Z) /\
  (forall m, Series_median S = Some m ->
             CalcExceed3TimesMedian S = count_above (fmul 3 m) (doubles S)).
Proof.
  unfold CalcExceed3TimesMedian, Series_median, doubles, observations, count_above.
  rewrite select_index_length. split.
  - intros Hobs. rewrite Hobs. simpl cell_scale.
    rewrite (proj2 (filter_nil_iff _ (values S))); [reflexivity|].
    intros x _. now destruct x.
  - intros m Hm. rewrite Hm. simpl cell_scale. now rewrite count_above_valid.
Qed.




(** ** Water-year buckets *)

Lemma Zmin_list_le_init x l : (Zmin_list x l <= x)%Z.
Proof.
  unfold Zmin_list. revert x. induction l as [|a l IH]; intros x; simpl; [lia|].
  specialize (IH (Z.min x a)). lia.
Qed.

Lemma Zmin_list_le x l y : In y l -> (Zmin_list x l <= y)%Z.
Proof.
  unfold Zmin_list. revert x. induction l as [|a l IH]; intros x; simpl; [tauto|].
  intros [<-|Hy].
  - pose proof (Zmin_list_le_init (Z.min x a) l) as H. unfold Zmin_list in H. lia.
  - now apply IH.
Qed.

Lemma Zmax_list_ge_init x l : (x <= Zmax_list x l)%Z.
Proof.
  unfold Zmax_list. revert x. induction l as [|a l IH]; intros x; simpl; [lia|].
  specialize (IH (Z.max x a)). lia.
Qed.

Lemma Zmax_list_ge x l y : In y l -> (y <= Zmax_list x l)%Z.
Proof.
  unfold Zmax_list. revert x. induction l as [|a l IH]; intros x; simpl; [tauto|].
  intros [<-|Hy].
  - pose proof (Zmax_list_ge_init (Z.max x a) l) as H. unfold Zmax_list in H. lia.
  - now apply IH.
Qed.

Lemma In_Zrange lo hi z : In z (Zrange lo hi) <-> (lo <= z <= hi)%Z.
Proof.
  unfold Zrange. rewrite in_map_iff. split.
  - intros (i & <- & Hi). apply in_seq in Hi. lia.
  - intros H. exists (Z.to_nat (z - lo)). split; [lia|]. apply in_seq. lia.
Qed.





Lemma map_nth_seq_id {A} (l : list A) d :
  map (fun i => nth i l d) (seq 0 (length l)) = l.
Proof.
  induction l as [|a l IH]; simpl; [reflexivity|].
  f_equal. rewrite <- seq_shift, map_map. exact IH.
Qed.

Section AnnualLabels.

Variable std : Series -> num.
Variable skew : Series -> num.

(** The rows of the annual table carry the labels of the bins, in order. *)
Lemma GetAnnualStatistics_labels df rows :
  GetAnnualStatistics std skew df = Ret rows ->
  map wy_label rows = map fst (resample_AS_OCT (col_Discharge df)).
Proof.
  unfold GetAnnualStatistics.
  destruct (mapM _ _) as [tq|e]; simpl; [|discriminate].
  intros H. injection H as <-. rewrite map_map. simpl.
  rewrite <- (length_map fst). apply map_nth_seq_id.
Qed.


End AnnualLabels.

(** ** Monthly averages *)

Lemma key_insert_In k keys x :
  In x (key_insert k keys) <-> x = k \/ In x keys.
Proof.
  induction keys as [|a keys IH]; simpl.
  - intuition.
  - destruct (k <? a)%Z; [simpl; intuition|].
    destruct (k =? a)%Z eqn:E.
    + apply Z.eqb_eq in E. subst a. simpl. intuition.
    + simpl. rewrite IH. intuition.
Qed.

Lemma key_insert_sorted k keys :
  StronglySorted Z.lt keys -> StronglySorted Z.lt (key_insert k keys).
Proof.
  induction 1 as [|a keys Hs IH Hall]; simpl.
  - constructor; constructor.
  - destruct (k <? a)%Z eqn:E1.
    + apply Z.ltb_lt in E1. constructor; [now constructor|].
      constructor; [exact E1|].
      eapply Forall_impl; [|exact Hall]. intros z Hz. lia.
    + destruct (k =? a)%Z eqn:E2; [now constructor|].
      apply Z.ltb_ge in E1. apply Z.eqb_neq in E2.
      constructor; [exact IH|].
      apply Forall_forall. intros z Hz. apply key_insert_In in Hz.
      destruct Hz as [->|Hz]; [lia|].
      rewrite Forall_forall in Hall. now apply Hall.
Qed.

Lemma fold_key_insert_In (df : list MoRow) acc x :
  In x (fold_left (fun keys r => key_insert (month (mo_label r)) keys) df acc)
  <-> In x acc \/ exists r, In r df /\ month (mo_label r) = x.
Proof.
  revert acc. induction df as [|r df IH]; intros acc; simpl.
  - split; [now left|]. intros [H|(r & [] & _)]. exact H.
  - rewrite IH, key_insert_In. split.
    + intros [[->|H]|(r' & Hr' & E)].
      * right. exists r. auto.
      * now left.
      * right. exists r'. auto.
    + intros [H|(r' & [<-|Hr'] & E)].
      * left. now right.
      * left. left. now symmetry.
      * right. exists r'. auto.
Qed.

Lemma fold_key_insert_sorted (df : list MoRow) acc :
  StronglySorted Z.lt acc ->
  StronglySorted Z.lt
    (fold_left (fun keys r => key_insert (month (mo_label r)) keys) df acc).
Proof.
  revert acc. induction df as [|r df IH]; intros acc H; simpl; [exact H|].
  apply IH. now apply key_insert_sorted.
Qed.

(** The group keys are the months that occur, each once, in ascending
    order. *)
Lemma group_keys_In df m :
  In m (group_keys df) <-> exists r, In r df /\ month (mo_label r) = m.
Proof.
  unfold group_keys. rewrite fold_key_insert_In. simpl. tauto.
Qed.

Lemma group_keys_sorted df : StronglySorted Z.lt (group_keys df).
Proof. apply fold_key_insert_sorted. constructor. Qed.

(** Two strictly ascending lists with the same elements are equal. *)
Lemma sorted_same_elements (l1 l2 : list Z) :
  StronglySorted Z.lt l1 -> StronglySorted Z.lt l2 ->
  (forall x, In x l1 <-> In x l2) -> l1 = l2.
Proof.
  intros H1. revert l2.
  induction H1 as [|a l1 Hs1 IH Hall1]; intros l2 H2 Heq.
  - destruct l2 as [|b l2]; [reflexivity|].
    destruct (proj2 (Heq b) (or_introl eq_refl)).
  - destruct H2 as [|b l2 Hs2 Hall2].
    + destruct (proj1 (Heq a) (or_introl eq_refl)).
    + rewrite Forall_forall in Hall1, Hall2.
      assert (Hab : a = b).
      { destruct (proj1 (Heq a) (or_introl eq_refl)) as [E|Ha]; [now symmetry|].
        destruct (proj2 (Heq b) (or_introl eq_refl)) as [E|Hb]; [exact E|].
        specialize (Hall1 b Hb). specialize (Hall2 a Ha). lia. }
      subst b. f_equal. apply IH; [exact Hs2|].
      intros x. split; intros Hx.
      * destruct (proj1 (Heq x) (or_intror Hx)) as [E|Hx2]; [|exact Hx2].
        specialize (Hall1 x Hx). lia.
      * destruct (proj2 (Heq x) (or_intror Hx)) as [E|Hx1]; [|exact Hx1].
        specialize (Hall2 x Hx). lia.
Qed.

Lemma Zrange_sorted lo hi : StronglySorted Z.lt (Zrange lo hi).
Proof.
  unfold Zrange. generalize (Z.to_nat (hi - lo + 1)) as n. intros n.
  generalize 0%nat as k. induction n as [|n IH]; intros k; simpl.
  - constructor.
  - constructor; [apply IH|].
    apply Forall_forall. intros z Hz. apply in_map_iff in Hz.
    destruct Hz as (i & <- & Hi). apply in_seq in Hi. lia.
Qed.

Lemma months_valid_spec df :
  months_valid df = true ->
  forall r, In r df -> (1 <= month (mo_label r) <= 12)%Z.
Proof.
  unfold months_valid. rewrite forallb_forall. intros H r Hr.
  specialize (H r Hr). apply andb_true_iff in H. lia.
Qed.

Lemma covers_all_months_spec df :
  covers_all_months df = true ->
  forall m, (1 <= m <= 12)%Z -> exists r, In r df /\ month (mo_label r) = m.
Proof.
  unfold covers_all_months. rewrite forallb_forall. intros H m Hm.
  specialize (H m (proj2 (In_Zrange 1 12 m) Hm)).
  apply existsb_exists in H. destruct H as (r & Hr & E).
  exists r. split; [exact Hr|]. now apply Z.eqb_eq.
Qed.

(** The grouped table has one row per group key, in key order. *)
Lemma GetMonthlyAverages_months df :
  map avg_month (GetMonthlyAverages df) = group_keys df.
Proof.
  unfold GetMonthlyAverages. rewrite map_map. simpl. apply map_id.
Qed.

(** Each row holds the column means of the rows of its month. *)
Lemma GetMonthlyAverages_row df row :
  In row (GetMonthlyAverages df) ->
  avg_Mean_Flow row = num_mean (map mo_Mean_Flow (month_group (avg_month row) df)) /\
  avg_Coeff_Var row = num_mean (map mo_Coeff_Var (month_group (avg_month row) df)) /\
  avg_Tqmean row = num_mean (map mo_Tqmean (month_group (avg_month row) df)) /\
  avg_RB_Index row = num_mean (map mo_RB_Index (month_group (avg_month row) df)).
Proof.
  unfold GetMonthlyAverages. intros H. apply in_map_iff in H.
  destruct H as (k & <- & _). simpl. repeat split.
Qed.

Lemma strictly_sorted_NoDup (l : list Z) : StronglySorted Z.lt l -> NoDup l.
Proof.
  induction 1 as [|a l Hs IH Hall]; constructor; [|exact IH].
  intros Ha. rewrite Forall_forall in Hall. specialize (Hall a Ha). lia.
Qed.

(** With valid month numbers there are at most twelve rows. *)
Lemma GetMonthlyAverages_at_most_12 df :
  months_valid df = true -> (length (GetMonthlyAverages df) <= 12)%nat.
Proof.
  intros Hv. rewrite <- (length_map avg_month), GetMonthlyAverages_months.
  assert (Hincl : incl (group_keys df) (Zrange 1 12)).
  { intros m Hm. apply group_keys_In in Hm. destruct Hm as (r & Hr & <-).
    apply In_Zrange. now apply months_valid_spec with (df := df). }
  apply (NoDup_incl_length (strictly_sorted_NoDup _ (group_keys_sorted df)) Hincl).
Qed.

Lemma fold_num_add_finite l acc :
  fold_left num_add (map Val l) (Val acc) = Val (fold_left Qplus l acc).
Proof.
  revert acc. induction l as [|x l IH]; intros acc; simpl; [reflexivity|].
  apply IH.
Qed.

Lemma fold_left_Qplus_sum l acc : fold_left Qplus l acc == acc + Qsum l.
Proof.
  revert acc. induction l as [|x l IH]; intros acc; simpl.
  - lra.
  - rewrite IH. lra.
Qed.

Lemma num_mean_nonempty l :
  filter (fun x => negb (num_isna x)) l <> [] ->
  num_mean l
  = num_div (fold_left num_add (filter (fun x => negb (num_isna x)) l) (Val 0))
            (Val (inject_Z (Z.of_nat (length (filter (fun x => negb (num_isna x)) l))))).
Proof.
  unfold num_mean. destruct (filter _ l); [congruence|reflexivity].
Qed.

(** On finite values the column mean is the arithmetic mean. *)
Lemma num_mean_finite l :
  l <> [] -> exists q, num_mean (map Val l) = Val q /\ q == arithmetic_mean l.
Proof.
  intros Hne.
  assert (Hf : filter (fun x => negb (num_isna x)) (map Val l) = map Val l).
  { apply filter_all, Forall_forall. intros x Hx. apply in_map_iff in Hx.
    destruct Hx as (q & <- & _). reflexivity. }
  rewrite num_mean_nonempty by (rewrite Hf; destruct l; [congruence|discriminate]).
  rewrite Hf, fold_num_add_finite, length_map. unfold num_div.
  destruct (Qeq_bool (inject_Z (Z.of_nat (length l))) 0) eqn:E.
  - apply Qeq_bool_iff, inject_nat_zero in E. destruct l; [congruence|discriminate].
  - eexists. split; [reflexivity|]. unfold arithmetic_mean.
    rewrite fold_left_Qplus_sum. apply Qmult_comp; [lra|reflexivity].
Qed.

(** C8 fails as stated: the table with a single January row is averaged
    into one row, not twelve. *)
Lemma GetMonthlyAverages_one_month_one_row :
  length (GetMonthlyAverages one_month_table) = 1%nat /\
  length (GetMonthlyAverages one_month_table) <> 12%nat.
Proof. split; [reflexivity|discriminate]. Qed.

(** C8, amended.  For a per-month-instance table in which every calendar
    month 1..12 occurs, over any number of years, GetMonthlyAverages returns
    exactly twelve rows, keyed by the month numbers 1 to 12 in ascending
    order, and each row holds the mean of each metric over the rows of its
    month. *)
Theorem GetMonthlyAverages_twelve_rows df :
  months_valid df = true -> covers_all_months df = true ->
  map avg_month (GetMonthlyAverages df) = [1; 2; 3; 4; 5; 6; 7; 8; 9; 10; 11; 12]%Z /\
  length (GetMonthlyAverages df) = 12%nat /\
  forall row,
    In row (GetMonthlyAverages df) ->
    avg_Mean_Flow row = num_mean (map mo_Mean_Flow (month_group (avg_month row) df)) /\
    avg_Coeff_Var row = num_mean (map mo_Coeff_Var (month_group (avg_month row) df)) /\
    avg_Tqmean row = num_mean (map mo_Tqmean (month_group (avg_month row) df)) /\
    avg_RB_Index row = num_mean (map mo_RB_Index (month_group (avg_month row) df)).
Proof.
  intros Hv Hc.
  assert (Hkeys : map avg_month (GetMonthlyAverages df) = Zrange 1 12).
  { rewrite GetMonthlyAverages_months.
    apply sorted_same_elements;
      [apply group_keys_sorted|apply Zrange_sorted|].
    intros m. rewrite group_keys_In, In_Zrange. split.
    - intros (r & Hr & <-). now apply months_valid_spec with (df := df).
    - now apply covers_all_months_spec. }
  split; [exact Hkeys|]. split.
  - rewrite <- (length_map avg_month), Hkeys. reflexivity.
  - intros row. apply GetMonthlyAverages_row.
Qed.

Lemma GetMonthlyAverages_twelve_rows_witness :
  months_valid two_year_table = true /\
  covers_all_months two_year_table = true /\
  length two_year_table = 24%nat /\
  length (GetMonthlyAverages two_year_table) = 12%nat.
Proof.
  split; [reflexivity|]. split; [reflexivity|]. split; [reflexivity|].
  apply (GetMonthlyAverages_twelve_rows two_year_table); reflexivity.
Defined.

(** * Further properties of the script *)

(** ** ClipData: ordered bounds, order of rows, composition *)

Lemma ClipData_ordered_witness :
  is_monotonic_increasing (df_index four_day_table) = true /\
  date_leb (mkDate 2000 2 1) (mkDate 2000 2 29) = true /\
  snd (ClipData four_day_table (mkDate 2000 2 1) (mkDate 2000 2 29)) = 4%Z.
Proof.
  split; [reflexivity|]. split; [reflexivity|].
  destruct (ClipData_ordered four_day_table (mkDate 2000 2 1) (mkDate 2000 2 29)
              eq_refl eq_refl) as (_ & Hcount & _).
  rewrite Hcount. reflexivity.
Defined.

Lemma sorted_rows_monotonic df :
  sorted_rows df -> is_monotonic_increasing (df_index df) = true.
Proof.
  induction 1 as [|r df Hs IH Hall]; [reflexivity|].
  destruct df as [|r' df']; [reflexivity|].
  change (date_leb (row_Date r) (row_Date r')
          && is_monotonic_increasing (df_index (r' :: df')) = true).
  rewrite IH, andb_true_r. inversion Hall; subst. assumption.
Qed.

(** X2.  The clipped table keeps the rows of the range, in their order: its
    index is again sorted, and a row is in it exactly when it is a row of
    the original table dated in the range. *)
Theorem ClipData_keeps_order df startDate endDate :
  is_monotonic_increasing (df_index df) = true ->
  is_monotonic_increasing (df_index (fst (ClipData df startDate endDate))) = true /\
  (forall r, In r (fst (ClipData df startDate endDate)) <->
             In r df /\ in_range startDate endDate r = true) /\
  (length (fst (ClipData df startDate endDate)) <= length df)%nat.
Proof.
  intros Hm. apply monotonic_sorted_rows in Hm.
  rewrite (ClipData_sorted _ _ _ Hm). cbn [fst].
  split; [|split].
  - apply sorted_rows_monotonic. now apply sorted_rows_filter.
  - intros r. apply filter_In.
  - apply filter_length_le.
Qed.

Lemma ClipData_keeps_order_witness :
  is_monotonic_increasing (df_index four_day_table) = true /\
  is_monotonic_increasing
    (df_index (fst (ClipData four_day_table (mkDate 2000 2 1) (mkDate 2000 2 29))))
  = true.
Proof.
  split; [reflexivity|].
  destruct (ClipData_keeps_order four_day_table (mkDate 2000 2 1) (mkDate 2000 2 29)
              eq_refl) as [H _].
  exact H.
Defined.

(** X3.  Clipping to a range and then to a range inside it gives the table that
    clipping to the inner range gives directly. *)
Theorem ClipData_nested df a b c d :
  is_monotonic_increasing (df_index df) = true ->
  date_leb a c = true -> date_leb d b = true ->
  fst (ClipData (fst (ClipData df a b)) c d) = fst (ClipData df c d).
Proof.
  intros Hm Hac Hdb. apply monotonic_sorted_rows in Hm.
  rewrite (ClipData_sorted df a b Hm). cbn [fst].
  rewrite (ClipData_sorted _ c d (sorted_rows_filter _ _ Hm)). cbn [fst].
  rewrite (ClipData_sorted df c d Hm). cbn [fst].
  rewrite filter_filter. apply filter_ext. intros r. unfold in_range.
  destruct (date_leb c (row_Date r)) eqn:E1; [|now rewrite andb_false_r].
  destruct (date_leb (row_Date r) d) eqn:E2; [|now rewrite !andb_false_r].
  rewrite (date_leb_trans _ _ _ Hac E1), (date_leb_trans _ _ _ E2 Hdb).
  reflexivity.
Qed.

Lemma ClipData_nested_witness :
  is_monotonic_increasing (df_index four_day_table) = true /\
  fst (ClipData (fst (ClipData four_day_table (mkDate 2000 1 1) (mkDate 2000 12 31)))
         (mkDate 2000 2 1) (mkDate 2000 2 29))
  = fst (ClipData four_day_table (mkDate 2000 2 1) (mkDate 2000 2 29)).
Proof.
  split; [reflexivity|].
  apply (ClipData_nested four_day_table (mkDate 2000 1 1) (mkDate 2000 12 31)
           (mkDate 2000 2 1) (mkDate 2000 2 29)); reflexivity.
Defined.

(** X4.  A range that contains every date of the table leaves the table as it
    is, and the count returned is the number of missing values. *)
Theorem ClipData_covering_range df startDate endDate :
  is_monotonic_increasing (df_index df) = true ->
  forallb (in_range startDate endDate) df = true ->
  ClipData df startDate endDate = (df, missing_count df).
Proof.
  intros Hm Hall. apply monotonic_sorted_rows in Hm.
  rewrite (ClipData_sorted _ _ _ Hm).
  rewrite forallb_forall in Hall.
  assert (Hin : filter (in_range startDate endDate) df = df).
  { apply filter_all, Forall_forall. exact Hall. }
  assert (Hb : filter (fun r => date_ltb (row_Date r) startDate) df = []).
  { apply filter_none, Forall_forall. intros r Hr. specialize (Hall r Hr).
    unfold in_range, date_leb in Hall. apply andb_true_iff in Hall.
    destruct Hall as [H _]. now apply negb_true_iff in H. }
  assert (Ha : filter (fun r => date_ltb endDate (row_Date r)) df = []).
  { apply filter_none, Forall_forall. intros r Hr. specialize (Hall r Hr).
    unfold in_range, date_leb in Hall. apply andb_true_iff in Hall.
    destruct Hall as [_ H]. now apply negb_true_iff in H. }
  rewrite Hin, Hb, Ha. cbn [length]. f_equal. lia.
Qed.

Lemma ClipData_covering_range_witness :
  is_monotonic_increasing (df_index four_day_table) = true /\
  forallb (in_range (mkDate 2000 1 1) (mkDate 2000 12 31)) four_day_table = true /\
  ClipData four_day_table (mkDate 2000 1 1) (mkDate 2000 12 31)
  = (four_day_table, 2%Z).
Proof.
  split; [reflexivity|]. split; [reflexivity|].
  apply (ClipData_covering_range four_day_table (mkDate 2000 1 1) (mkDate 2000 12 31));
    reflexivity.
Defined.

Lemma missing_count_split p df :
  missing_count df
  = (missing_count (filter p df)
     + missing_count (filter (fun r => negb (p r)) df))%Z.
Proof.
  unfold missing_count. rewrite <- Nat2Z.inj_add. f_equal.
  induction df as [|r df IH]; simpl; [reflexivity|].
  destruct (p r); simpl; destruct (isna (Discharge r)); simpl; lia.
Qed.

(** With the bounds in order no row is both before the start and after the
    end. *)
Lemma excluded_count_ordered df startDate endDate :
  date_leb startDate endDate = true ->
  excluded_count startDate endDate df
  = (Z.of_nat (length (filter (fun r => date_ltb (row_Date r) startDate) df))
     + Z.of_nat (length (filter (fun r => date_ltb endDate (row_Date r)) df)))%Z.
Proof.
  intros Hord. unfold excluded_count, out_of_range.
  rewrite filter_or_disjoint; [lia|].
  intros r Hr. destruct (date_ltb endDate (row_Date r)) eqn:E; [|reflexivity].
  pose proof (date_ltb_trans _ _ _ E Hr) as Hlt.
  unfold date_leb in Hord. rewrite Hlt in Hord. discriminate.
Qed.

(** X5.  With the bounds in order, the count returned is the number of missing
    values among the rows kept, plus the number of rows left out, plus the
    number of missing values among the rows left out: a missing row outside
    the range is counted twice. *)
Theorem ClipData_count_breakdown df startDate endDate :
  is_monotonic_increasing (df_index df) = true ->
  date_leb startDate endDate = true ->
  snd (ClipData df startDate endDate)
  = (missing_count (fst (ClipData df startDate endDate))
     + excluded_count startDate endDate df
     + missing_count (filter (out_of_range startDate endDate) df))%Z.
Proof.
  intros Hm Hord. apply monotonic_sorted_rows in Hm.
  rewrite (ClipData_sorted _ _ _ Hm). cbn [fst snd].
  rewrite (excluded_count_ordered df startDate endDate Hord).
  rewrite (missing_count_split (in_range startDate endDate) df) at 1.
  rewrite (filter_ext _ _ (out_of_range_negb startDate endDate)). lia.
Qed.

Lemma ClipData_count_breakdown_witness :
  is_monotonic_increasing (df_index four_day_table) = true /\
  date_leb (mkDate 2000 2 1) (mkDate 2000 2 29) = true /\
  snd (ClipData four_day_table (mkDate 2000 2 1) (mkDate 2000 2 29))
  = (1 + 2 + 1)%Z.
Proof.
  split; [reflexivity|]. split; [reflexivity|].
  rewrite (ClipData_count_breakdown four_day_table (mkDate 2000 2 1) (mkDate 2000 2 29)
             eq_refl eq_refl).
  reflexivity.
Defined.

(** ** CalcTqmean: range *)

Lemma Qsum_ge_bound l m :
  (forall x, In x l -> m <= x) ->
  inject_Z (Z.of_nat (length l)) * m <= Qsum l.
Proof.
  induction l as [|a l IH]; intros H.
  - simpl. change (inject_Z 0) with 0. lra.
  - assert (Ha : m <= a) by (apply H; now left).
    assert (Hl : inject_Z (Z.of_nat (length l)) * m <= Qsum l)
      by (apply IH; intros x Hx; apply H; now right).
    change (Qsum (a :: l)) with (a + Qsum l).
    replace (Z.of_nat (length (a :: l))) with (1 + Z.of_nat (length l))%Z
      by (simpl length; lia).
    rewrite inject_Z_plus. change (inject_Z 1) with 1. lra.
Qed.

Lemma valid_length_le (l : list cell) : (length (valid l) <= length l)%nat.
Proof. induction l as [|[q|] l IH]; simpl; lia. Qed.

Lemma valid_length_lt (l : list cell) :
  forallb notna l = false -> (length (valid l) < length l)%nat.
Proof.
  induction l as [|[q|] l IH]; simpl; intros H; [discriminate| |].
  - specialize (IH H). lia.
  - pose proof (valid_length_le l). lia.
Qed.

Lemma count_ratio_lt_1 a n :
  (a < n)%nat -> inject_Z (Z.of_nat a) / inject_Z (Z.of_nat n) < 1.
Proof.
  intros H. apply Qlt_shift_div_r; [apply inject_nat_pos; lia|].
  rewrite Qmult_1_l. unfold Qlt. simpl. lia.
Qed.

(** A missing day is never counted as above a bound. *)
Lemma count_gtb_le_valid (m : cell) (l : list cell) :
  (length (filter (fun v => cell_gtb v m) l) <= length (valid l))%nat.
Proof.
  induction l as [|[q|] l IH]; simpl; [lia| |].
  - destruct m as [y|]; [destruct (Qlt_bool y (round64 q))|]; simpl; lia.
  - destruct m; exact IH.
Qed.

(** The days counted by CalcTqmean are among the days with a value. *)
Lemma tqmean_count_le (S : Series) :
  (length (select_index S (map (fun v => cell_gtb v (Series_mean S)) (values S)))
   <= length (observations S))%nat.
Proof.
  rewrite select_index_length. apply count_gtb_le_valid.
Qed.

Lemma observations_length_le (S : Series) : (length (observations S) <= length S)%nat.
Proof.
  unfold observations. rewrite <- (length_map snd S). apply valid_length_le.
Qed.

(** X6.  On every non-empty series, with or without missing values, CalcTqmean
    returns a number in [0,1] and does not raise; a day without a value is
    never counted, so that the result is below 1 when a value is missing. *)
Theorem CalcTqmean_unit_interval (S : Series) :
  S <> [] ->
  exists t, CalcTqmean S = Ret (Val t) /\ 0 <= t <= 1 /\
            (no_missing S = false -> t < 1).
Proof.
  intros Hne.
  assert (Hpos : (0 < length S)%nat) by (destruct S; [congruence|simpl; lia]).
  pose proof (tqmean_count_le S) as Hcount.
  pose proof (observations_length_le S) as Hobs.
  unfold CalcTqmean, py_truediv.
  destruct (length S) as [|n] eqn:En; [lia|]. rewrite <- En in *.
  eexists. split; [reflexivity|]. split.
  - apply count_ratio_bounds; lia.
  - intros Hm. apply count_ratio_lt_1.
    pose proof (valid_length_lt (values S) Hm) as Hlt.
    unfold values in Hlt at 2. rewrite length_map in Hlt.
    fold (observations S) in Hlt. lia.
Qed.

Lemma CalcTqmean_unit_interval_witness :
  gappy_series <> [] /\
  exists t, CalcTqmean gappy_series = Ret (Val t) /\ t < 1.
Proof.
  split; [discriminate|].
  destruct (CalcTqmean_unit_interval gappy_series) as (t & Hret & _ & Hlt);
    [discriminate|].
  exists t. split; [exact Hret|]. now apply Hlt.
Defined.

(** ** Non-negative flows *)

Lemma nonneg_flows_spec (S : Series) :
  nonneg_flows S = true -> forall x, In x (observations S) -> 0 <= x.
Proof.
  unfold nonneg_flows. rewrite forallb_forall. intros H x Hx.
  apply Qle_bool_iff. now apply H.
Qed.

Lemma doubles_nonneg (S : Series) :
  nonneg_flows S = true -> forall x, In x (doubles S) -> 0 <= x.
Proof.
  intros H x Hx. unfold doubles in Hx. apply in_map_iff in Hx.
  destruct Hx as (q & <- & Hq). apply round64_nonneg.
  now apply (nonneg_flows_spec S H).
Qed.

(** ** Calc7Q: incomplete windows and the lower bound *)

Lemma Calc7Q_short_witness :
  (length three_day_series < 7)%nat /\ Calc7Q three_day_series = None.
Proof.
  split; [simpl; lia|]. apply (Calc7Q_short three_day_series). simpl. lia.
Defined.

Lemma fold_min_le l x :
  let r := fold_left (fun m y => if Qle_bool y m then y else m) l x in
  r <= x /\ forall y, In y l -> r <= y.
Proof.
  revert x. induction l as [|a l IH]; intros x; simpl.
  - split; [lra|intros y []].
  - destruct (IH (if Qle_bool a x then a else x)) as [H1 H2].
    destruct (Qle_bool a x) eqn:E.
    + apply Qle_bool_iff in E. split; [lra|].
      intros y [<-|Hy]; [exact H1|now apply H2].
    + assert (x <= a).
      { apply Qlt_le_weak, Qnot_le_lt. intros C. apply Qle_bool_iff in C. congruence. }
      split; [exact H1|]. intros y [<-|Hy]; [lra|now apply H2].
Qed.

Lemma Qmin_list_le l m : Qmin_list l = Some m -> forall x, In x l -> m <= x.
Proof.
  destruct l as [|a l]; simpl; [discriminate|]. intros H. injection H as <-.
  destruct (fold_min_le l a) as [H1 H2]. intros x [<-|Hx]; auto.
Qed.

Lemma fold_max_In l x :
  let r := fold_left (fun m y => if Qle_bool m y then y else m) l x in
  r = x \/ In r l.
Proof.
  revert x. induction l as [|a l IH]; intros x; simpl; [now left|].
  destruct (IH (if Qle_bool x a then a else x)) as [H|H]; [|now right; right].
  rewrite H. destruct (Qle_bool x a); [right; now left|now left].
Qed.

Lemma Qmax_list_In l q : Qmax_list l = Some q -> In q l.
Proof.
  destruct l as [|x l]; simpl; [discriminate|]. intros H. injection H as <-.
  destruct (fold_max_In l x) as [H|H]; [left; now rewrite H|now right].
Qed.

(** A mean is never below a lower bound of its terms. *)
Lemma mean_of_ge_bound l m q :
  mean_of l = Some q -> (forall x, In x l -> m <= x) -> m <= q.
Proof.
  intros H Hall.
  assert (Hq : q = Qsum l / inject_Z (Z.of_nat (length l)) /\ (0 < length l)%nat).
  { destruct l as [|a l']; [discriminate|]. injection H as <-.
    split; [reflexivity|simpl; lia]. }
  destruct Hq as [-> Hpos].
  apply Qle_shift_div_l.
  - now apply inject_nat_pos.
  - rewrite Qmult_comm. now apply Qsum_ge_bound.
Qed.

(** Whenever Calc7Q returns a value, the minimum of the series exists and
    is at most that value. *)
Lemma Calc7Q_value_ge_min (S : Series) q :
  Calc7Q S = Some q -> exists m, Series_min S = Some m /\ m <= q.
Proof.
  unfold Calc7Q. unfold Series_min at 1. rewrite values_Series_rolling_mean.
  intros H. apply Qmin_list_In, valid_In, rolling_mean_entry in H.
  destruct H as (win & Hmean & Hsub). unfold Series_min.
  destruct (Qmin_list (valid (values S))) as [m|] eqn:Hmin.
  - exists m. split; [reflexivity|].
    apply (mean_of_ge_bound win m q Hmean).
    intros x Hx. apply (Qmin_list_le _ _ Hmin). apply valid_In. now apply Hsub.
  - destruct win as [|a win]; [discriminate|].
    assert (Ha : In a (valid (values S))) by (apply valid_In, Hsub; now left).
    destruct (valid (values S)); [contradiction|discriminate].
Qed.

(** X10.  With at least seven observations and none missing, the seven-day low
    flow lies between the smallest and the largest observation; on a
    constant series it is that constant. *)
Theorem Calc7Q_between_min_and_max (S : Series) :
  (7 <= length S)%nat -> no_missing S = true ->
  exists q lo hi,
    Calc7Q S = Some q /\ Series_min S = Some lo /\ Series_max S = Some hi /\
    lo <= q <= hi /\
    (forall c, (forall x, In x (observations S) -> x == c) -> q == c).
Proof.
  intros Hlen Hnm.
  destruct (Calc7Q S) as [q|] eqn:E;
    [|exfalso; now apply (Calc7Q_defined S Hlen Hnm)].
  destruct (Calc7Q_value_ge_min S q E) as (lo & Hlo & Hle1).
  destruct (Calc7Q_value_le_max S q E) as (hi & Hhi & Hle2).
  exists q, lo, hi.
  split; [reflexivity|]. split; [exact Hlo|]. split; [exact Hhi|].
  split; [split; assumption|].
  intros c Hc.
  assert (Hlo_in : In lo (observations S)) by (apply Qmin_list_In; exact Hlo).
  assert (Hhi_in : In hi (observations S)) by (apply Qmax_list_In; exact Hhi).
  pose proof (Hc lo Hlo_in). pose proof (Hc hi Hhi_in). lra.
Qed.

Lemma Calc7Q_between_min_and_max_witness :
  (7 <= length seven_day_series)%nat /\ no_missing seven_day_series = true /\
  exists q lo, Calc7Q seven_day_series = Some q /\
               Series_min seven_day_series = Some lo /\ lo <= q.
Proof.
  split; [simpl; lia|]. split; [reflexivity|].
  destruct (Calc7Q_between_min_and_max seven_day_series)
    as (q & lo & hi & Hq & Hlo & _ & [Hle _] & _); [simpl; lia|reflexivity|].
  exists q, lo. repeat split; assumption.
Defined.

(** ** CalcExceed3TimesMedian: at most half of the days *)

Lemma count_le_positive_In m l :
  (0 < count_le m l)%nat -> exists x, In x l /\ x <= m.
Proof.
  unfold count_le. induction l as [|a l IH]; simpl; [lia|].
  destruct (Qle_bool a m) eqn:E.
  - intros _. exists a. split; [now left|]. now apply Qle_bool_iff.
  - intros H. destruct (IH H) as (x & Hx & Hle). exists x. split; [now right|exact Hle].
Qed.

(** X11.  For a non-empty series of non-negative flows without missing values,
    at most half of the observations exceed three times the median. *)
Theorem CalcExceed3TimesMedian_at_most_half (S : Series) :
  S <> [] -> no_missing S = true -> nonneg_flows S = true ->
  (0 <= CalcExceed3TimesMedian S)%Z /\
  (2 * CalcExceed3TimesMedian S <= Z.of_nat (length S))%Z.
Proof.
  intros Hne Hnm Hnn.
  pose proof (doubles_nonempty S Hne Hnm) as Hobs.
  destruct (median_of_is_median (doubles S) (doubles_on_grid S) Hobs)
    as (m & Hm & [Hmed1 _] & Hgrid).
  rewrite (proj2 (CalcExceed3TimesMedian_observations S) m Hm).
  unfold count_above.
  assert (Hn : (0 < length (doubles S))%nat)
    by (destruct (doubles S); [congruence|simpl; lia]).
  assert (Hm0 : 0 <= m).
  { destruct (count_le_positive_In m (doubles S)) as (x & Hx & Hle); [lia|].
    pose proof (doubles_nonneg S Hnn x Hx). lra. }
  assert (Hm3 : m <= fmul 3 m)
    by (apply round64_ge_grid; [exact Hgrid|lra]).
  assert (Hmono : (length (filter (fun x => Qlt_bool (fmul 3 m) x) (doubles S))
                   <= length (filter (fun x => Qlt_bool m x) (doubles S)))%nat).
  { apply filter_length_le_impl. intros x Hx.
    apply Qlt_bool_iff in Hx. apply Qlt_bool_iff. lra. }
  assert (Hc : (count_le m (doubles S)
                + length (filter (fun x => Qlt_bool m x) (doubles S))
                = length (doubles S))%nat)
    by exact (filter_complement_length (fun x => Qle_bool x m) (doubles S)).
  rewrite <- (valid_length_no_missing S Hnm), <- doubles_length. lia.
Qed.

Lemma CalcExceed3TimesMedian_at_most_half_witness :
  three_day_series <> [] /\ no_missing three_day_series = true /\
  nonneg_flows three_day_series = true /\
  (2 * CalcExceed3TimesMedian three_day_series <= 3)%Z.
Proof.
  split; [discriminate|]. split; [reflexivity|]. split; [reflexivity|].
  destruct (CalcExceed3TimesMedian_at_most_half three_day_series)
    as [_ H]; [discriminate|reflexivity|reflexivity|].
  exact H.
Defined.

(** ** Resampling into periods *)

Lemma Zmin_list_In x l : In (Zmin_list x l) (x :: l).
Proof.
  unfold Zmin_list. revert x. induction l as [|a l IH]; intros x; simpl; [now left|].
  destruct (IH (Z.min x a)) as [H|H]; [|now right; right].
  rewrite <- H. destruct (Z.min_spec x a) as [[_ E]|[_ E]]; rewrite E; auto.
Qed.

Lemma Zmax_list_In x l : In (Zmax_list x l) (x :: l).
Proof.
  unfold Zmax_list. revert x. induction l as [|a l IH]; intros x; simpl; [now left|].
  destruct (IH (Z.max x a)) as [H|H]; [|now right; right].
  rewrite <- H. destruct (Z.max_spec x a) as [[_ E]|[_ E]]; rewrite E; auto.
Qed.

Lemma Zrange_length lo hi : length (Zrange lo hi) = Z.to_nat (hi - lo + 1).
Proof. unfold Zrange. now rewrite length_map, length_seq. Qed.

Section ResampleBy.

Variable key : Date -> Z.
Variable label : Z -> Date.

Lemma has_key_iff k (s : Series) :
  has_key key k s = true <-> exists p, In p s /\ key (fst p) = k.
Proof.
  unfold has_key. rewrite existsb_exists. split; intros (p & Hp & E); exists p;
    (split; [exact Hp|]); now apply Z.eqb_eq.
Qed.

Lemma filter_key_nil k (s : Series) :
  filter (fun p => (key (fst p) =? k)%Z) s = [] <-> has_key key k s = false.
Proof.
  unfold has_key. induction s as [|p s IH]; simpl; [tauto|].
  destruct (key (fst p) =? k)%Z; simpl; [split; discriminate|exact IH].
Qed.

(** A bin is empty exactly when its period lies strictly between two periods
    that have observations and has none itself. *)
Lemma resample_by_empty_bin_iff (s : Series) :
  (exists b, In b (resample_by key label s) /\ snd b = []) <->
  (exists k1 k k2,
      (k1 < k < k2)%Z /\ has_key key k1 s = true /\ has_key key k2 s = true /\
      has_key key k s = false).
Proof.
  unfold resample_by.
  destruct (map (fun p => key (fst p)) s) as [|k0 ks] eqn:E.
  - split.
    + intros (b & [] & _).
    + intros (k1 & k & k2 & _ & H1 & _). apply has_key_iff in H1.
      destruct H1 as (p & Hp & _). destruct s; [contradiction|discriminate].
  - assert (Hkeys : forall k, In k (k0 :: ks) <-> has_key key k s = true).
    { intros k. rewrite <- E, in_map_iff, has_key_iff. split;
        intros (p & H1 & H2); exists p; tauto. }
    split.
    + intros (b & Hb & Hnil). apply in_map_iff in Hb.
      destruct Hb as (k & <- & Hk). cbn [snd] in Hnil.
      apply filter_key_nil in Hnil. apply In_Zrange in Hk.
      pose proof (proj1 (Hkeys _) (Zmin_list_In k0 ks)) as Hmin.
      pose proof (proj1 (Hkeys _) (Zmax_list_In k0 ks)) as Hmax.
      exists (Zmin_list k0 ks), k, (Zmax_list k0 ks).
      repeat split; try assumption.
      * destruct (Z.eq_dec k (Zmin_list k0 ks)) as [->|]; [congruence|lia].
      * destruct (Z.eq_dec k (Zmax_list k0 ks)) as [->|]; [congruence|lia].
    + intros (k1 & k & k2 & Hlt & H1 & H2 & Hk).
      apply Hkeys in H1. apply Hkeys in H2.
      assert (Hlo : (Zmin_list k0 ks <= k1)%Z).
      { destruct H1 as [<-|H1]; [apply Zmin_list_le_init|now apply Zmin_list_le]. }
      assert (Hhi : (k2 <= Zmax_list k0 ks)%Z).
      { destruct H2 as [<-|H2]; [apply Zmax_list_ge_init|now apply Zmax_list_ge]. }
      exists (label k, filter (fun p => (key (fst p) =? k)%Z) s). split.
      * apply in_map_iff. exists k. split; [reflexivity|]. apply In_Zrange. lia.
      * cbn [snd]. now apply filter_key_nil.
Qed.

(** When every observation falls in the periods [a..b], so does every bin,
    and there are at most [b - a + 1] bins. *)
Lemma resample_by_within (s : Series) a b :
  (forall p, In p s -> (a <= key (fst p) <= b)%Z) ->
  (length (resample_by key label s) <= Z.to_nat (b - a + 1))%nat /\
  (forall bin, In bin (resample_by key label s) ->
               exists k, (a <= k <= b)%Z /\ fst bin = label k).
Proof.
  intros H. unfold resample_by.
  destruct (map (fun p => key (fst p)) s) as [|k0 ks] eqn:E.
  - split; [simpl; lia|intros bin []].
  - assert (Hkeys : forall k, In k (k0 :: ks) -> (a <= k <= b)%Z).
    { intros k Hk. rewrite <- E in Hk. apply in_map_iff in Hk.
      destruct Hk as (p & <- & Hp). now apply H. }
    pose proof (Hkeys _ (Zmin_list_In k0 ks)) as Hmin.
    pose proof (Hkeys _ (Zmax_list_In k0 ks)) as Hmax.
    split.
    + rewrite length_map, Zrange_length. lia.
    + intros bin Hbin. apply in_map_iff in Hbin. destruct Hbin as (k & <- & Hk).
      apply In_Zrange in Hk. exists k. split; [lia|reflexivity].
Qed.

(** The labels are those of the consecutive periods from the first to the
    last that has an observation. *)
Lemma resample_by_labels (s : Series) :
  s <> [] ->
  exists lo hi,
    (forall p, In p s -> (lo <= key (fst p) <= hi)%Z) /\
    has_key key lo s = true /\ has_key key hi s = true /\
    map fst (resample_by key label s) = map label (Zrange lo hi).
Proof.
  intros Hne. unfold resample_by.
  destruct (map (fun p => key (fst p)) s) as [|k0 ks] eqn:E;
    [destruct s; [congruence|discriminate]|].
  assert (Hkeys : forall k, In k (k0 :: ks) -> has_key key k s = true).
  { intros k Hk. rewrite <- E in Hk. apply in_map_iff in Hk.
    destruct Hk as (p & <- & Hp). apply has_key_iff. exists p. tauto. }
  exists (Zmin_list k0 ks), (Zmax_list k0 ks). split; [|split; [|split]].
  - intros p Hp.
    assert (Hin : In (key (fst p)) (k0 :: ks))
      by (rewrite <- E; apply in_map_iff; exists p; tauto).
    destruct Hin as [<-|Hin].
    + split; [apply Zmin_list_le_init|apply Zmax_list_ge_init].
    + split; [now apply Zmin_list_le|now apply Zmax_list_ge].
  - apply Hkeys, Zmin_list_In.
  - apply Hkeys, Zmax_list_In.
  - now rewrite map_map.
Qed.

End ResampleBy.

Lemma resample_AS_OCT_by (s : Series) :
  resample_AS_OCT s = resample_by water_year (fun y => mkDate y 10 1) s.
Proof. reflexivity. Qed.

Lemma resample_MS_by (s : Series) :
  resample_MS s = resample_by month_index month_label s.
Proof. reflexivity. Qed.

Lemma has_key_col key k df :
  has_key key k (col_Discharge df) = existsb (fun r => (key (row_Date r) =? k)%Z) df.
Proof.
  unfold has_key, col_Discharge. induction df as [|r df IH]; simpl; [reflexivity|].
  now rewrite IH.
Qed.

(** The same, for the Discharge column of a table. *)
Lemma resample_by_empty_bin_iff_df key label df :
  (exists b, In b (resample_by key label (col_Discharge df)) /\ snd b = []) <->
  (exists k1 k k2,
      (k1 < k < k2)%Z /\
      existsb (fun r => (key (row_Date r) =? k1)%Z) df = true /\
      existsb (fun r => (key (row_Date r) =? k2)%Z) df = true /\
      existsb (fun r => (key (row_Date r) =? k)%Z) df = false).
Proof.
  rewrite resample_by_empty_bin_iff.
  split; intros (k1 & k & k2 & H); exists k1, k, k2;
    rewrite ?has_key_col in *; exact H.
Qed.

(** ** Exceptions in the per-bin metrics *)

Lemma CalcTqmean_empty_iff (S : Series) :
  S = [] <-> CalcTqmean S = Raise ZeroDivisionError.
Proof.
  unfold CalcTqmean, py_truediv. destruct S as [|p S]; simpl.
  - tauto.
  - split; discriminate.
Qed.

Lemma mapM_Ret_Forall2 {A B} (f : A -> pyresult B) l bs :
  mapM f l = Ret bs <-> Forall2 (fun a b => f a = Ret b) l bs.
Proof.
  revert bs. induction l as [|a l IH]; intros bs; simpl.
  - split.
    + intros H. injection H as <-. constructor.
    + intros H. inversion H. reflexivity.
  - split.
    + destruct (f a) as [b|e] eqn:Ea; simpl; [|discriminate].
      destruct (mapM f l) as [bs'|e] eqn:El; simpl; [|discriminate].
      intros H. injection H as <-. constructor; [exact Ea|]. now apply IH.
    + intros H. inversion H as [|? b ? bs' Ha Hl]; subst.
      rewrite Ha. simpl. apply IH in Hl. rewrite Hl. reflexivity.
Qed.

Lemma mapM_CalcTqmean_raises (bins : list (Date * Series)) :
  mapM (fun b => CalcTqmean (snd b)) bins = Raise ZeroDivisionError <->
  exists b, In b bins /\ snd b = [].
Proof.
  induction bins as [|b bins IH]; simpl.
  - split; [discriminate|intros (b & [] & _)].
  - destruct (CalcTqmean (snd b)) as [t|e] eqn:Eb; simpl.
    + assert (Hne : snd b <> []).
      { intros Hnil. apply CalcTqmean_empty_iff in Hnil. congruence. }
      destruct (mapM (fun b0 => CalcTqmean (snd b0)) bins) as [ts|e] eqn:El; simpl.
      * split; [discriminate|]. intros (b' & [<-|Hb'] & Hnil); [contradiction|].
        assert (Ret ts = Raise ZeroDivisionError) by (apply IH; eauto).
        discriminate.
      * destruct e. split.
        -- intros _. destruct (proj1 IH eq_refl) as (b' & Hb' & Hnil). eauto.
        -- reflexivity.
    + destruct e. split; [|reflexivity]. intros _. exists b. split; [now left|].
      now apply CalcTqmean_empty_iff.
Qed.

(** ** Rows of the period tables *)

Lemma nth_map_lt {A B} (g : A -> B) l i d d0 :
  (i < length l)%nat -> nth i (map g l) d = g (nth i l d0).
Proof.
  intros H. rewrite (nth_indep (map g l) d (g d0)) by (now rewrite length_map).
  apply map_nth.
Qed.

Lemma Forall2_nth_lt {A B} (R : A -> B -> Prop) l l' i d d' :
  Forall2 R l l' -> (i < length l)%nat -> R (nth i l d) (nth i l' d').
Proof.
  intros H. revert i. induction H as [|a b l l' Hab _ IH]; intros i Hi;
    simpl in Hi; [lia|].
  destruct i as [|i]; simpl; [exact Hab|]. apply IH. lia.
Qed.

Lemma Forall2_length_eq {A B} (R : A -> B -> Prop) l l' :
  Forall2 R l l' -> length l = length l'.
Proof. induction 1; simpl; congruence. Qed.

Lemma map_seq_nth_ext {A B} (F : nat -> B) (G : A -> B) (l : list A) d :
  (forall i, (i < length l)%nat -> F i = G (nth i l d)) ->
  map F (seq 0 (length l)) = map G l.
Proof.
  intros H. rewrite <- (map_nth_seq_id l d) at 2. rewrite map_map.
  apply map_ext_in. intros i Hi. apply in_seq in Hi. apply H. lia.
Qed.

Section PeriodTables.

Variable std : Series -> num.
Variable skew : Series -> num.

(** The annual table is built bin by bin: it has one row per bin, in order,
    holding the bin's label and the metrics of the bin's observations. *)
Lemma GetAnnualStatistics_built_by_bin df rows :
  GetAnnualStatistics std skew df = Ret rows <->
  exists tq,
    Forall2 (fun b t => CalcTqmean (snd b) = Ret t)
            (resample_AS_OCT (col_Discharge df)) tq /\
    rows = map (fun bt => wy_row_of_bin std skew (fst bt) (snd bt))
               (combine (resample_AS_OCT (col_Discharge df)) tq).
Proof.
  unfold GetAnnualStatistics.
  set (bins := resample_AS_OCT (col_Discharge df)).
  assert (Hrows : forall tq,
             length bins = length tq ->
             map (fun i =>
                    mkWYRow (nth i (map fst bins) (mkDate 0 0 0))
                      (nth i (map (fun b => Series_mean (snd b)) bins) None)
                      (nth i (map (fun b => Series_max (snd b)) bins) None)
                      (nth i (map (fun b => Series_median (snd b)) bins) None)
                      (nth i (map (fun p => num_mul (num_div (fst p) (num_of_cell (snd p)))
                                              (Val 100))
                                (combine (map (fun b => std (snd b)) bins)
                                         (map (fun b => Series_mean (snd b)) bins))) NaN)
                      (nth i (map (fun b => skew (snd b)) bins) NaN)
                      (nth i tq NaN)
                      (nth i (map (fun b => CalcRBindex (snd b)) bins) NaN)
                      (nth i (map (fun b => Calc7Q (snd b)) bins) None)
                      (nth i (map (fun b => CalcExceed3TimesMedian (snd b)) bins) 0%Z))
                 (seq 0 (length bins))
             = map (fun bt => wy_row_of_bin std skew (fst bt) (snd bt))
                   (combine bins tq)).
  { intros tq Hlen.
    assert (Hc : length (combine bins tq) = length bins)
      by (rewrite length_combine; lia).
    rewrite <- Hc.
    apply (map_seq_nth_ext _ _ (combine bins tq) ((mkDate 0 0 0, []), NaN)).
    intros i Hi. rewrite Hc in Hi.
    rewrite combine_nth by exact Hlen. unfold wy_row_of_bin. cbn [fst snd].
    set (d0 := (mkDate 0 0 0, @nil (Date * cell))).
    assert (Hcov :
              nth i (map (fun p => num_mul (num_div (fst p) (num_of_cell (snd p)))
                                     (Val 100))
                       (combine (map (fun b => std (snd b)) bins)
                                (map (fun b => Series_mean (snd b)) bins))) NaN
              = num_mul (num_div (std (snd (nth i bins d0)))
                                 (num_of_cell (Series_mean (snd (nth i bins d0)))))
                        (Val 100)).
    { rewrite (nth_map_lt _ (combine _ _) i _ (std (snd d0), Series_mean (snd d0)))
        by (rewrite length_combine, !length_map; lia).
      rewrite combine_nth by (now rewrite !length_map).
      rewrite (nth_map_lt (fun b => std (snd b)) bins i _ d0 Hi).
      rewrite (nth_map_lt (fun b => Series_mean (snd b)) bins i _ d0 Hi).
      reflexivity. }
    rewrite Hcov.
    f_equal;
      match goal with
      | |- nth _ (map ?g _) _ = _ => apply (nth_map_lt g); exact Hi
      end. }
  split.
  - destruct (mapM (fun b => CalcTqmean (snd b)) bins) as [tq|e] eqn:E; simpl;
      [|discriminate].
    intros H. injection H as <-. apply mapM_Ret_Forall2 in E.
    exists tq. split; [exact E|]. apply Hrows. eapply Forall2_length_eq; eauto.
  - intros (tq & Htq & ->).
    pose proof (Forall2_length_eq _ _ _ Htq) as Hlen.
    apply mapM_Ret_Forall2 in Htq. rewrite Htq. simpl. f_equal. now apply Hrows.
Qed.

End PeriodTables.

(** ** GetAnnualStatistics *)

Lemma Forall2_combine_In {A B} (R : A -> B -> Prop) l l' a b :
  Forall2 R l l' -> In (a, b) (combine l l') -> R a b.
Proof.
  induction 1 as [|x y l l' Hxy _ IH]; simpl; [tauto|].
  intros [E|H]; [injection E as <- <-; exact Hxy|now apply IH].
Qed.

Lemma CalcTqmean_Ret_range (S : Series) t :
  CalcTqmean S = Ret t -> exists q, t = Val q /\ 0 <= q <= 1.
Proof.
  intros H.
  pose proof (tqmean_count_le S) as Hcount.
  pose proof (observations_length_le S) as Hobs.
  unfold CalcTqmean, py_truediv in H.
  destruct (length S) as [|n] eqn:En; [discriminate|]. rewrite <- En in *.
  injection H as <-. eexists. split; [reflexivity|].
  apply count_ratio_bounds; lia.
Qed.

Lemma Series_mean_None_iff (S : Series) :
  Series_mean S = None <-> observations S = [].
Proof.
  unfold Series_mean, mean_f64, observations.
  destruct (valid (values S)); simpl; split; congruence.
Qed.




Lemma has_water_year_col y df :
  has_key water_year y (col_Discharge df) = has_water_year y df.
Proof. apply has_key_col. Qed.

Lemma In_col_Discharge p df :
  In p (col_Discharge df) <-> exists r, In r df /\ p = (row_Date r, Discharge r).
Proof.
  unfold col_Discharge. rewrite in_map_iff. split; intros (r & H1 & H2); exists r; auto.
Qed.

Section AnnualTable.

Variable std : Series -> num.
Variable skew : Series -> num.

(** X12.  GetAnnualStatistics raises ZeroDivisionError exactly when some water
    year between two water years with observations has none: CalcTqmean is
    applied to its empty bin. *)
Theorem GetAnnualStatistics_raises_iff_gap df :
  GetAnnualStatistics std skew df = Raise ZeroDivisionError <->
  exists y1 y y2,
    (y1 < y < y2)%Z /\ has_water_year y1 df = true /\
    has_water_year y2 df = true /\ has_water_year y df = false.
Proof.
  rewrite <- (resample_by_empty_bin_iff_df water_year (fun y => mkDate y 10 1) df).
  rewrite <- resample_AS_OCT_by, <- mapM_CalcTqmean_raises.
  unfold GetAnnualStatistics.
  destruct (mapM _ (resample_AS_OCT (col_Discharge df))) as [tq|e]; simpl.
  - split; discriminate.
  - destruct e. tauto.
Qed.


End AnnualTable.


(** ** GetMonthlyStatistics *)

Section MonthlyTable.

Variable std : Series -> num.

(** The monthly table is built bin by bin, like the annual one. *)
Lemma GetMonthlyStatistics_built_by_bin df rows :
  GetMonthlyStatistics std df = Ret rows <->
  exists tq,
    Forall2 (fun b t => CalcTqmean (snd b) = Ret t)
            (resample_MS (col_Discharge df)) tq /\
    rows = map (fun bt => mo_row_of_bin std (fst bt) (snd bt))
               (combine (resample_MS (col_Discharge df)) tq).
Proof.
  unfold GetMonthlyStatistics.
  set (bins := resample_MS (col_Discharge df)).
  assert (Hrows : forall tq,
             length bins = length tq ->
             map (fun i =>
                    mkMoRow (nth i (map fst bins) (mkDate 0 0 0))
                      (num_of_cell (nth i (map (fun b => Series_mean (snd b)) bins) None))
                      (nth i (map (fun p => num_mul (num_div (fst p) (num_of_cell (snd p)))
                                              (Val 100))
                                (combine (map (fun b => std (snd b)) bins)
                                         (map (fun b => Series_mean (snd b)) bins))) NaN)
                      (nth i tq NaN)
                      (nth i (map (fun b => CalcRBindex (snd b)) bins) NaN))
                 (seq 0 (length bins))
             = map (fun bt => mo_row_of_bin std (fst bt) (snd bt))
                   (combine bins tq)).
  { intros tq Hlen.
    assert (Hc : length (combine bins tq) = length bins)
      by (rewrite length_combine; lia).
    rewrite <- Hc.
    apply (map_seq_nth_ext _ _ (combine bins tq) ((mkDate 0 0 0, []), NaN)).
    intros i Hi. rewrite Hc in Hi.
    rewrite combine_nth by exact Hlen. unfold mo_row_of_bin. cbn [fst snd].
    set (d0 := (mkDate 0 0 0, @nil (Date * cell))).
    rewrite (nth_map_lt _ (combine _ _) i _ (std (snd d0), Series_mean (snd d0)))
      by (rewrite length_combine, !length_map; lia).
    rewrite combine_nth by (now rewrite !length_map).
    rewrite (nth_map_lt (fun b => std (snd b)) bins i _ d0 Hi).
    rewrite !(nth_map_lt (fun b => Series_mean (snd b)) bins i _ d0 Hi).
    rewrite (nth_map_lt fst bins i _ d0 Hi).
    rewrite (nth_map_lt (fun b => CalcRBindex (snd b)) bins i _ d0 Hi).
    reflexivity. }
  split.
  - destruct (mapM (fun b => CalcTqmean (snd b)) bins) as [tq|e] eqn:E; simpl;
      [|discriminate].
    intros H. injection H as <-. apply mapM_Ret_Forall2 in E.
    exists tq. split; [exact E|]. apply Hrows. eapply Forall2_length_eq; eauto.
  - intros (tq & Htq & ->).
    pose proof (Forall2_length_eq _ _ _ Htq) as Hlen.
    apply mapM_Ret_Forall2 in Htq. rewrite Htq. simpl. f_equal. now apply Hrows.
Qed.

Lemma GetMonthlyStatistics_labels df rows :
  GetMonthlyStatistics std df = Ret rows ->
  map mo_label rows = map fst (resample_MS (col_Discharge df)).
Proof.
  intros H. apply GetMonthlyStatistics_built_by_bin in H.
  destruct H as (tq & Htq & ->). rewrite map_map. cbn [mo_row_of_bin mo_label].
  pose proof (Forall2_length_eq _ _ _ Htq) as Hlen.
  revert Hlen. generalize (resample_MS (col_Discharge df)) as bins. clear.
  intros bins. revert tq. induction bins as [|b bins IH]; intros [|t tq] Hlen;
    simpl in *; try discriminate; [reflexivity|].
  f_equal. apply IH. lia.
Qed.

(** X15.  GetMonthlyStatistics raises ZeroDivisionError exactly when some month
    between two months with observations has none. *)
Theorem GetMonthlyStatistics_raises_iff_gap df :
  GetMonthlyStatistics std df = Raise ZeroDivisionError <->
  exists k1 k k2,
    (k1 < k < k2)%Z /\ has_month k1 df = true /\
    has_month k2 df = true /\ has_month k df = false.
Proof.
  rewrite <- (resample_by_empty_bin_iff_df month_index month_label df).
  rewrite <- resample_MS_by, <- mapM_CalcTqmean_raises.
  unfold GetMonthlyStatistics.
  destruct (mapM _ (resample_MS (col_Discharge df))) as [tq|e]; simpl.
  - split; discriminate.
  - destruct e. tauto.
Qed.

End MonthlyTable.

Lemma month_label_month k : (1 <= month (month_label k) <= 12)%Z.
Proof. unfold month_label. simpl. pose proof (Z.mod_pos_bound k 12). lia. Qed.

Lemma month_label_index d :
  (1 <= month d <= 12)%Z -> month_label (month_index d) = mkDate (year d) (month d) 1.
Proof.
  intros H. unfold month_label, month_index.
  assert (E1 : ((year d * 12 + (month d - 1)) / 12 = year d)%Z).
  { rewrite Z.div_add_l by lia. rewrite Z.div_small by lia. lia. }
  assert (E2 : ((year d * 12 + (month d - 1)) mod 12 = month d - 1)%Z).
  { rewrite Z.add_comm, Z.mod_add by lia. apply Z.mod_small. lia. }
  rewrite E1, E2. f_equal. lia.
Qed.

(** Some month index in a span of twelve falls on each calendar month. *)
Lemma month_in_span lo m :
  (1 <= m <= 12)%Z ->
  exists k, (lo <= k <= lo + 11)%Z /\ month (month_label k) = m.
Proof.
  intros Hm. exists (lo + (m - 1 - lo) mod 12)%Z.
  pose proof (Z.mod_pos_bound (m - 1 - lo) 12 ltac:(lia)) as Hb.
  split; [lia|]. unfold month_label. simpl.
  rewrite Zplus_mod_idemp_r.
  replace (lo + (m - 1 - lo))%Z with (m - 1)%Z by lia.
  rewrite Z.mod_small; lia.
Qed.

(** The group keys are 1..12 as soon as every calendar month occurs among
    valid month numbers. *)
Lemma group_keys_all_months (mo : list MoRow) :
  (forall r, In r mo -> (1 <= month (mo_label r) <= 12)%Z) ->
  (forall m, (1 <= m <= 12)%Z -> exists r, In r mo /\ month (mo_label r) = m) ->
  group_keys mo = Zrange 1 12.
Proof.
  intros Hv Hc.
  apply sorted_same_elements; [apply group_keys_sorted|apply Zrange_sorted|].
  intros m. rewrite group_keys_In, In_Zrange. split.
  - intros (r & Hr & <-). now apply Hv.
  - apply Hc.
Qed.

(** X17.  An unbroken record of twelve months or more, resampled by month and then
    averaged by calendar month, gives exactly twelve rows, for the months 1
    to 12 in order. *)
Theorem monthly_averages_of_a_full_year (std : Series -> num) df mo k1 k2 :
  GetMonthlyStatistics std df = Ret mo ->
  has_month k1 df = true -> has_month k2 df = true -> (k1 + 11 <= k2)%Z ->
  map avg_month (GetMonthlyAverages mo)
  = [1; 2; 3; 4; 5; 6; 7; 8; 9; 10; 11; 12]%Z /\
  length (GetMonthlyAverages mo) = 12%nat.
Proof.
  intros Hret H1 H2 Hspan.
  pose proof (GetMonthlyStatistics_labels std df mo Hret) as Hlab.
  unfold has_month in H1, H2.
  rewrite <- (has_key_col month_index) in H1, H2.
  apply has_key_iff in H1. destruct H1 as (p1 & Hp1 & E1).
  apply has_key_iff in H2. destruct H2 as (p2 & Hp2 & E2).
  rewrite resample_MS_by in Hlab.
  assert (Hne : col_Discharge df <> []) by (intros E; rewrite E in Hp1; contradiction).
  destruct (resample_by_labels month_index month_label _ Hne)
    as (lo & hi & Hrange & _ & _ & Hbins).
  pose proof (Hrange p1 Hp1) as Hr1. pose proof (Hrange p2 Hp2) as Hr2.
  rewrite Hbins in Hlab.
  assert (Hkeys : map avg_month (GetMonthlyAverages mo) = Zrange 1 12).
  { rewrite GetMonthlyAverages_months. apply group_keys_all_months.
    - intros r Hr.
      assert (Hin : In (mo_label r) (map mo_label mo)) by now apply in_map.
      rewrite Hlab in Hin. apply in_map_iff in Hin. destruct Hin as (k & <- & _).
      apply month_label_month.
    - intros m Hm. destruct (month_in_span lo m Hm) as (k & Hk & Em).
      assert (Hin : In (month_label k) (map mo_label mo)).
      { rewrite Hlab. apply in_map, In_Zrange. lia. }
      apply in_map_iff in Hin. destruct Hin as (r & Er & Hr).
      exists r. split; [exact Hr|]. now rewrite Er. }
  split; [exact Hkeys|].
  rewrite <- (length_map avg_month), Hkeys. reflexivity.
Qed.

Lemma monthly_averages_of_a_full_year_witness :
  exists mo,
    GetMonthlyStatistics no_reduction twelve_month_days = Ret mo /\
    has_month 24000 twelve_month_days = true /\
    has_month 24011 twelve_month_days = true /\
    length (GetMonthlyAverages mo) = 12%nat.
Proof.
  destruct (GetMonthlyStatistics no_reduction twelve_month_days)
    as [mo|e] eqn:E; [|vm_compute in E; discriminate].
  exists mo. split; [reflexivity|]. split; [reflexivity|]. split; [reflexivity|].
  apply (monthly_averages_of_a_full_year no_reduction twelve_month_days mo
           24000 24011 E eq_refl eq_refl).
  lia.
Defined.

(** ** One row per water year *)

(** X14.  When GetAnnualStatistics returns on a table that is not empty, the rows
    are those of the consecutive water years from the earliest to the latest
    that has an observation, in chronological order. *)
Theorem GetAnnualStatistics_one_row_per_water_year
        (std skew : Series -> num) df rows :
  GetAnnualStatistics std skew df = Ret rows -> df <> [] ->
  exists lo hi,
    (forall r, In r df -> (lo <= water_year (row_Date r) <= hi)%Z) /\
    has_water_year lo df = true /\ has_water_year hi df = true /\
    map wy_label rows = map (fun y => mkDate y 10 1) (Zrange lo hi) /\
    length rows = Z.to_nat (hi - lo + 1).
Proof.
  intros Hret Hne.
  pose proof (GetAnnualStatistics_labels std skew df rows Hret) as Hlab.
  assert (Hcol : col_Discharge df <> [])
    by (destruct df; [congruence|discriminate]).
  rewrite resample_AS_OCT_by in Hlab.
  destruct (resample_by_labels water_year (fun y => mkDate y 10 1) _ Hcol)
    as (lo & hi & Hrange & Hlo & Hhi & Hbins).
  rewrite has_water_year_col in Hlo, Hhi. rewrite Hbins in Hlab.
  exists lo, hi. split; [|split; [exact Hlo|split; [exact Hhi|split; [exact Hlab|]]]].
  - intros r Hr.
    apply (Hrange (row_Date r, Discharge r)). apply In_col_Discharge. eauto.
  - rewrite <- (length_map wy_label), Hlab, length_map. apply Zrange_length.
Qed.

Lemma GetAnnualStatistics_one_row_per_water_year_witness :
  exists rows lo hi,
    GetAnnualStatistics no_reduction no_reduction boundary_table = Ret rows /\
    boundary_table <> [] /\
    has_water_year lo boundary_table = true /\
    length rows = Z.to_nat (hi - lo + 1).
Proof.
  destruct (GetAnnualStatistics no_reduction no_reduction boundary_table)
    as [rows|e] eqn:E; [|vm_compute in E; discriminate].
  destruct (GetAnnualStatistics_one_row_per_water_year no_reduction no_reduction
              boundary_table rows E) as (lo & hi & _ & Hlo & _ & _ & Hlen);
    [discriminate|].
  exists rows, lo, hi. split; [reflexivity|]. split; [discriminate|].
  split; assumption.
Defined.

(** ** GetAnnualAverages *)

Lemma valid_nil_iff (l : list cell) : valid l = [] <-> forall c, In c l -> c = None.
Proof.
  induction l as [|[q|] l IH]; simpl.
  - split; [intros _ c []|reflexivity].
  - split; [discriminate|]. intros H. specialize (H (Some q) (or_introl eq_refl)).
    discriminate.
  - rewrite IH. split.
    + intros H c [<-|Hc]; auto.
    + intros H c Hc. apply H. now right.
Qed.




Lemma all_Val_list (P : Q -> Prop) (l : list num) :
  (forall x, In x l -> exists q, x = Val q /\ P q) ->
  exists ts, l = map Val ts /\ forall t, In t ts -> P t.
Proof.
  induction l as [|x l IH]; intros H.
  - exists []. split; [reflexivity|intros t []].
  - destruct (H x (or_introl eq_refl)) as (q & -> & Hq).
    destruct IH as (ts & -> & Hts); [intros y Hy; apply H; now right|].
    exists (q :: ts). split; [reflexivity|]. intros t [<-|Ht]; auto.
Qed.

(** X19.  The annual average of Tqmean over a table that GetAnnualStatistics
    returned is a number in [0,1]. *)
Theorem annual_average_Tqmean_range (std skew : Series -> num) df rows :
  GetAnnualStatistics std skew df = Ret rows -> rows <> [] ->
  exists q, aa_Tqmean (GetAnnualAverages rows) = Val q /\ 0 <= q <= 1.
Proof.
  intros Hret Hne. apply GetAnnualStatistics_built_by_bin in Hret.
  destruct Hret as (tq & Htq & Hrows).
  destruct (all_Val_list (fun q => 0 <= q <= 1) (map wy_Tqmean rows))
    as (ts & Hts & Hrange).
  { intros x Hx. apply in_map_iff in Hx. destruct Hx as (row & <- & Hrow).
    rewrite Hrows in Hrow. apply in_map_iff in Hrow.
    destruct Hrow as ([b t] & <- & Hbt). cbn.
    apply (Forall2_combine_In _ _ _ _ _ Htq) in Hbt.
    now apply CalcTqmean_Ret_range in Hbt. }
  assert (Hts_ne : ts <> []).
  { intros E. rewrite E in Hts. destruct rows; [congruence|discriminate]. }
  unfold GetAnnualAverages. cbn [aa_Tqmean]. rewrite Hts.
  destruct (num_mean_finite ts Hts_ne) as (q & Hq & Hmean).
  exists q. split; [exact Hq|]. rewrite Hmean. unfold arithmetic_mean.
  assert (Hpos : 0 < inject_Z (Z.of_nat (length ts)))
    by (apply inject_nat_pos; destruct ts; [congruence|simpl; lia]).
  split.
  - apply Qle_shift_div_l; [exact Hpos|].
    pose proof (Qsum_ge_bound ts 0 (fun x Hx => proj1 (Hrange x Hx))). lra.
  - apply Qle_shift_div_r; [exact Hpos|].
    pose proof (Qsum_le_bound ts 1 (fun x Hx => proj2 (Hrange x Hx))). lra.
Qed.

Lemma annual_average_Tqmean_range_witness :
  exists rows q,
    GetAnnualStatistics no_reduction no_reduction boundary_table = Ret rows /\
    rows <> [] /\
    aa_Tqmean (GetAnnualAverages rows) = Val q /\ q <= 1.
Proof.
  destruct (GetAnnualStatistics no_reduction no_reduction boundary_table)
    as [rows|e] eqn:E; [|vm_compute in E; discriminate].
  assert (Hne : rows <> []).
  { vm_compute in E. injection E as <-. discriminate. }
  destruct (annual_average_Tqmean_range no_reduction no_reduction
              boundary_table rows E Hne) as (q & Hq & _ & Hle).
  exists rows, q. repeat split; assumption.
Defined.

(** ** The loop body of the main script *)

Lemma water_year_mono d1 d2 :
  date_leb d1 d2 = true -> (water_year d1 <= water_year d2)%Z.
Proof.
  intros H. unfold water_year, water_year_start.
  destruct (10 <=? month d1)%Z eqn:E1; destruct (10 <=? month d2)%Z eqn:E2;
    simpl; date_bools;
    rewrite ?Z.leb_le, ?Z.leb_gt in *; lia.
Qed.

Lemma month_index_mono d1 d2 :
  (1 <= month d1 <= 12)%Z -> (1 <= month d2 <= 12)%Z ->
  date_leb d1 d2 = true -> (month_index d1 <= month_index d2)%Z.
Proof. intros H1 H2 H. unfold month_index. date_bools. lia. Qed.

Lemma calendar_months_spec df :
  calendar_months df = true ->
  forall r, In r df -> (1 <= month (row_Date r) <= 12)%Z.
Proof.
  unfold calendar_months. rewrite forallb_forall. intros H r Hr.
  specialize (H r Hr). apply andb_true_iff in H. lia.
Qed.

Lemma annual_rows_within (std skew : Series -> num) df rows a b :
  GetAnnualStatistics std skew df = Ret rows ->
  (forall r, In r df -> (a <= water_year (row_Date r) <= b)%Z) ->
  (length rows <= Z.to_nat (b - a + 1))%nat /\
  (forall row, In row rows ->
               exists y, (a <= y <= b)%Z /\ wy_label row = mkDate y 10 1).
Proof.
  intros Hret Hin.
  pose proof (GetAnnualStatistics_labels std skew df rows Hret) as Hlab.
  rewrite resample_AS_OCT_by in Hlab.
  destruct (resample_by_within water_year (fun y => mkDate y 10 1)
              (col_Discharge df) a b) as [Hlen Hbins].
  { intros p Hp. apply In_col_Discharge in Hp. destruct Hp as (r & Hr & ->).
    now apply Hin. }
  split.
  - rewrite <- (length_map wy_label), Hlab, length_map. exact Hlen.
  - intros row Hrow.
    assert (Hl : In (wy_label row) (map wy_label rows)) by now apply in_map.
    rewrite Hlab in Hl. apply in_map_iff in Hl. destruct Hl as (bin & <- & Hbin).
    now apply Hbins.
Qed.

Lemma monthly_rows_within (std : Series -> num) df rows a b :
  GetMonthlyStatistics std df = Ret rows ->
  (forall r, In r df -> (a <= month_index (row_Date r) <= b)%Z) ->
  (length rows <= Z.to_nat (b - a + 1))%nat /\
  (forall row, In row rows ->
               exists k, (a <= k <= b)%Z /\ mo_label row = month_label k).
Proof.
  intros Hret Hin.
  pose proof (GetMonthlyStatistics_labels std df rows Hret) as Hlab.
  rewrite resample_MS_by in Hlab.
  destruct (resample_by_within month_index month_label
              (col_Discharge df) a b) as [Hlen Hbins].
  { intros p Hp. apply In_col_Discharge in Hp. destruct Hp as (r & Hr & ->).
    now apply Hin. }
  split.
  - rewrite <- (length_map mo_label), Hlab, length_map. exact Hlen.
  - intros row Hrow.
    assert (Hl : In (mo_label row) (map mo_label rows)) by now apply in_map.
    rewrite Hlab in Hl. apply in_map_iff in Hl. destruct Hl as (bin & <- & Hbin).
    now apply Hbins.
Qed.

(** X22.  For one station, when the loop body runs to its end on a table sorted by
    date: the table kept is the part of the record inside the analysis
    period 1969-10-01 to 2019-09-30, the count kept is the number of missing
    values plus the number of rows outside the period, the annual table has
    at most 50 rows, labelled October 1 of 1969 to 2018, the monthly table
    has at most 600 rows, and the table of monthly averages has at most 12
    rows. *)
Theorem process_station_shape (std skew : Series -> num) raw res :
  is_monotonic_increasing (df_index raw) = true ->
  calendar_months raw = true ->
  process_station std skew raw = Ret res ->
  st_DataDF res = filter (in_range analysis_start analysis_end) raw /\
  st_MissingValues res
  = (missing_count raw + excluded_count analysis_start analysis_end raw)%Z /\
  (length (st_WYDataDF res) <= 50)%nat /\
  (forall row, In row (st_WYDataDF res) ->
               exists y, (1969 <= y <= 2018)%Z /\ wy_label row = mkDate y 10 1) /\
  (length (st_MoDataDF res) <= 600)%nat /\
  (length (st_MonthlyAverages res) <= 12)%nat.
Proof.
  intros Hm Hcal Hret. pose proof (monotonic_sorted_rows raw Hm) as Hs.
  unfold process_station in Hret.
  rewrite (ClipData_sorted raw analysis_start analysis_end Hs) in Hret.
  set (clipped := filter (in_range analysis_start analysis_end) raw) in *.
  destruct (GetAnnualStatistics std skew clipped) as [wy|e] eqn:Ewy;
    [|discriminate]. cbn [bind] in Hret.
  destruct (GetMonthlyStatistics std clipped) as [mo|e] eqn:Emo;
    [|discriminate]. cbn [bind] in Hret.
  injection Hret as <-. cbn.
  assert (Hin : forall r, In r clipped ->
                  date_leb analysis_start (row_Date r) = true /\
                  date_leb (row_Date r) analysis_end = true /\
                  (1 <= month (row_Date r) <= 12)%Z).
  { intros r Hr. apply filter_In in Hr. destruct Hr as [Hr Hrange].
    apply andb_true_iff in Hrange. destruct Hrange as [H1 H2].
    split; [exact H1|]. split; [exact H2|]. now apply calendar_months_spec with (df := raw). }
  destruct (annual_rows_within std skew clipped wy 1969 2018 Ewy) as [Hwy1 Hwy2].
  { intros r Hr. destruct (Hin r Hr) as (H1 & H2 & _).
    apply water_year_mono in H1. apply water_year_mono in H2.
    change (water_year analysis_start) with 1969%Z in H1.
    change (water_year analysis_end) with 2018%Z in H2. lia. }
  destruct (monthly_rows_within std clipped mo (1969 * 12 + 9) (2019 * 12 + 8) Emo)
    as [Hmo1 Hmo2].
  { intros r Hr. destruct (Hin r Hr) as (H1 & H2 & Hv).
    apply month_index_mono in H1; [|simpl; lia|exact Hv].
    apply month_index_mono in H2; [|exact Hv|simpl; lia].
    change (month_index analysis_start) with (1969 * 12 + 9)%Z in H1.
    change (month_index analysis_end) with (2019 * 12 + 8)%Z in H2. lia. }
  split; [reflexivity|]. split.
  - rewrite (excluded_count_ordered raw analysis_start analysis_end eq_refl). lia.
  - split; [exact Hwy1|]. split; [exact Hwy2|]. split; [exact Hmo1|].
    apply GetMonthlyAverages_at_most_12.
    unfold months_valid. apply forallb_forall. intros row Hrow.
    destruct (Hmo2 row Hrow) as (k & _ & ->).
    pose proof (month_label_month k). apply andb_true_iff. split; lia.
Qed.

Lemma process_station_shape_witness :
  exists res,
    is_monotonic_increasing (df_index twelve_month_days) = true /\
    calendar_months twelve_month_days = true /\
    process_station no_reduction no_reduction twelve_month_days = Ret res /\
    (length (st_WYDataDF res) <= 50)%nat.
Proof.
  destruct (process_station no_reduction no_reduction twelve_month_days)
    as [res|e] eqn:E; [|vm_compute in E; discriminate].
  exists res. split; [reflexivity|]. split; [reflexivity|]. split; [reflexivity|].
  exact (proj1 (proj2 (proj2 (process_station_shape no_reduction no_reduction
                                twelve_month_days res eq_refl eq_refl E)))).
Defined.

(** ** GetMonthlyAverages: one row per month that occurs *)

(** X20.  The table of monthly averages has one row for each calendar month that
    occurs in the input, in ascending order of the month number and without
    repetition; it has no more rows than the input. *)
Theorem GetMonthlyAverages_one_row_per_month (MoDataDF : list MoRow) :
  StronglySorted Z.lt (map avg_month (GetMonthlyAverages MoDataDF)) /\
  (forall m, In m (map avg_month (GetMonthlyAverages MoDataDF)) <->
             exists r, In r MoDataDF /\ month (mo_label r) = m) /\
  (length (GetMonthlyAverages MoDataDF) <= length MoDataDF)%nat.
Proof.
  rewrite <- (length_map avg_month), GetMonthlyAverages_months.
  split; [apply group_keys_sorted|]. split; [apply group_keys_In|].
  rewrite <- (length_map (fun r => month (mo_label r)) MoDataDF).
  apply NoDup_incl_length.
  - apply strictly_sorted_NoDup, group_keys_sorted.
  - intros m Hm. apply group_keys_In in Hm. destruct Hm as (r & Hr & <-).
    apply (in_map (fun r0 => month (mo_label r0))). exact Hr.
Qed.



(** ** Rows of the monthly table *)

Lemma month_index_label k : month_index (month_label k) = k.
Proof.
  unfold month_index, month_label. cbn [year month].
  pose proof (Z.div_mod k 12). lia.
Qed.

(** X16.  Every row of the monthly table is labelled with the first day of a
    calendar month and has a Tqmean in [0,1]; its Mean Flow is NaN exactly
    when the month holds no value. *)
Theorem GetMonthlyStatistics_row_invariants (std : Series -> num) df rows row :
  GetMonthlyStatistics std df = Ret rows -> In row rows ->
  day (mo_label row) = 1%Z /\ (1 <= month (mo_label row) <= 12)%Z /\
  (exists t, mo_Tqmean row = Val t /\ 0 <= t <= 1) /\
  (mo_Mean_Flow row = NaN <->
   forall r, In r df -> month_index (row_Date r) = month_index (mo_label row) ->
             Discharge r = None).
Proof.
  intros Hret Hrow. apply GetMonthlyStatistics_built_by_bin in Hret.
  destruct Hret as (tq & Htq & ->). apply in_map_iff in Hrow.
  destruct Hrow as ([b t] & <- & Hbt). cbn [fst snd].
  pose proof (Forall2_combine_In _ _ _ _ _ Htq Hbt) as Ht. cbn beta in Ht.
  apply in_combine_l in Hbt.
  assert (Hlabel : exists k, b = (month_label k,
                                  filter (fun p => (month_index (fst p) =? k)%Z)
                                         (col_Discharge df))).
  { unfold resample_MS in Hbt. destruct (map _ (col_Discharge df)); [contradiction|].
    apply in_map_iff in Hbt. destruct Hbt as (k & <- & _). now exists k. }
  destruct Hlabel as (k & ->). unfold mo_row_of_bin. cbn [fst snd mo_label mo_Tqmean mo_Mean_Flow].
  split; [reflexivity|]. split; [apply month_label_month|].
  split; [now apply CalcTqmean_Ret_range in Ht|].
  rewrite month_index_label.
  set (bin := filter _ (col_Discharge df)).
  assert (Hnan : num_of_cell (Series_mean bin) = NaN <-> observations bin = []).
  { rewrite <- Series_mean_None_iff. destruct (Series_mean bin); simpl; split; congruence. }
  rewrite Hnan. unfold observations. rewrite valid_nil_iff. split.
  - intros H r Hr Hk. apply H. apply in_map_iff.
    exists (row_Date r, Discharge r). split; [reflexivity|].
    apply filter_In. split; [apply In_col_Discharge; now exists r|].
    cbn [fst]. now apply Z.eqb_eq.
  - intros H c Hc. apply in_map_iff in Hc. destruct Hc as ([d v] & <- & Hp).
    apply filter_In in Hp. destruct Hp as [Hp Hk].
    apply In_col_Discharge in Hp. destruct Hp as (r & Hr & E).
    injection E as -> ->. apply (H r Hr). now apply Z.eqb_eq.
Qed.

Lemma GetMonthlyStatistics_row_invariants_witness :
  exists rows,
    GetMonthlyStatistics no_reduction twelve_month_days = Ret rows /\
    forall row, In row rows -> day (mo_label row) = 1%Z.
Proof.
  destruct (GetMonthlyStatistics no_reduction twelve_month_days)
    as [rows|e] eqn:E; [|vm_compute in E; discriminate].
  exists rows. split; [reflexivity|]. intros row Hrow.
  exact (proj1 (GetMonthlyStatistics_row_invariants no_reduction
                  twelve_month_days rows row E Hrow)).
Defined.
